(** * Auto-parameterization of match expressions

    A shallow embedding of [src/mongo/db/matcher/expression_parameterization.h]:
    the context that hands out input parameter ids
    ([MatchExpressionParameterizationVisitorContext]), the visitor that asks it
    for ids ([MatchExpressionParameterizationVisitor]) and the walker hook
    ([MatchExpressionParameterizationWalker]).

    Conventions of the embedding.
    - A [const MatchExpression*] is an [option] of a node reference: [None] is
      [nullptr].
    - [InputParamId] is a 32-bit signed integer and is modelled by [Z] with
      its range written out: [nextParamId++] at the largest value leaves the
      smallest one (the two's complement result), and the conversions to
      [size_t] that the budget tests perform are reductions modulo [2^64].
    - A member function of the context is a function from the state before the
      call to the returned value and the state after it.  Calling a virtual
      member through a null pointer has no defined result: functions that can
      do so return [None] in that case. *)

From stdpp Require Import base option list gmap strings.
From Stdlib Require Import ZArith.

Local Open Scope Z_scope.

(** ** Unsigned arithmetic of [size_t] *)

Definition size_t_bits : Z := 64.
Definition size_t_modulus : Z := 2 ^ size_t_bits.

(** [static_cast<size_t>(v)] for a signed integer [v]. *)
Definition to_size_t (v : Z) : Z := v mod size_t_modulus.

(** Addition of two [size_t] values. *)
Definition size_t_add (a b : Z) : Z := (a + b) mod size_t_modulus.

(** ** The integer type of the ids *)

(** Modelled from the spec: [MatchExpression::InputParamId] is declared in
    [expression.h] (not part of these sources).  The spec makes a slot id a
    non-negative integer that holds the largest id a tree can need; the
    declaration is [int32_t], and that width is used here. *)
Definition InputParamId_bits : Z := 32.
Definition InputParamId_min : Z := - 2 ^ (InputParamId_bits - 1).
Definition InputParamId_max : Z := 2 ^ (InputParamId_bits - 1) - 1.

(** The value an [InputParamId] holds after an arithmetic result [v]: [v]
    itself when it is in range, else [v] reduced modulo [2^32] into the
    range. *)
Definition to_InputParamId (v : Z) : Z :=
  (v - InputParamId_min) mod 2 ^ InputParamId_bits + InputParamId_min.

(** ** The parameterization context *)

Section Context.

(** The expression nodes and their virtual [equivalent] member belong to
    [expression.h]; the context only stores references to nodes and calls
    [m->equivalent(expr)]. *)
Variable Node : Type.
Variable equivalent : Node -> Node -> bool.

Definition InputParamId : Type := Z.

(** [const MatchExpression*]. *)
Abbreviation NodePtr := (option Node) (only parsing).

Record MatchExpressionParameterizationVisitorContext : Type := mkContext {
  inputParamIdToExpressionMap : list NodePtr;
  maxParamCount : option Z;
  nextParamId : InputParamId;
  parameterized : bool
}.

Abbreviation Ctx := MatchExpressionParameterizationVisitorContext.

(** The constructor: an empty vector, the given limit and first id, and
    [parameterized = true]. *)
Definition newContext (inputMaxParamCount : option Z)
    (startingParamId : InputParamId) : Ctx :=
  {| inputParamIdToExpressionMap := [];
     maxParamCount := inputMaxParamCount;
     nextParamId := startingParamId;
     parameterized := true |}.

(** The constructor with both default arguments. *)
Definition defaultContext : Ctx := newContext None 0.

Definition set_parameterized (b : bool) (c : Ctx) : Ctx :=
  {| inputParamIdToExpressionMap := inputParamIdToExpressionMap c;
     maxParamCount := maxParamCount c;
     nextParamId := nextParamId c;
     parameterized := b |}.

(** [inputParamIdToExpressionMap.emplace_back(expr); return nextParamId++;] *)
Definition emplace_back_and_advance (expr : NodePtr) (c : Ctx) : Ctx :=
  {| inputParamIdToExpressionMap := inputParamIdToExpressionMap c ++ [expr];
     maxParamCount := maxParamCount c;
     nextParamId := to_InputParamId (nextParamId c + 1);
     parameterized := parameterized c |}.

Definition availableParamIds (numIds : Z) (c : Ctx) : bool * Ctx :=
  if negb (parameterized c) then (false, c)
  else
    match maxParamCount c with
    | Some limit =>
        if limit <? size_t_add (to_size_t (nextParamId c)) (to_size_t numIds)
        then (false, set_parameterized false c)
        else (true, c)
    | None => (true, c)
    end.

Definition nextInputParamId (expr : NodePtr) (c : Ctx)
    : option InputParamId * Ctx :=
  if negb (parameterized c) then (None, c)
  else
    match maxParamCount c with
    | Some limit =>
        if limit <=? to_size_t (nextParamId c)
        then (None, set_parameterized false c)
        else (Some (nextParamId c), emplace_back_and_advance expr c)
    | None => (Some (nextParamId c), emplace_back_and_advance expr c)
    end.

(** [std::find_if(v.begin(), v.end(), pred) - v.begin()], where [pred m]
    calls a member of [m]: the offset of the first entry satisfying [pred],
    [length v] for [v.end()], and no result when an entry that the scan
    reaches is null. *)
Fixpoint find_if (pred : Node -> bool) (v : list NodePtr) : option nat :=
  match v with
  | [] => Some 0%nat
  | None :: _ => None
  | Some m :: rest =>
      if pred m then Some 0%nat else S <$> find_if pred rest
  end.

Definition nextReusableInputParamId (expr : NodePtr) (c : Ctx)
    : option (option InputParamId * Ctx) :=
  if negb (parameterized c) then Some (None, c)
  else
    match expr with
    | Some e =>
        it ← find_if (λ m, equivalent m e) (inputParamIdToExpressionMap c);
        if (it =? length (inputParamIdToExpressionMap c))%nat
        then Some (nextInputParamId expr c)
        else Some (Some (Z.of_nat it), c)
    | None => Some (None, c)
    end.

End Context.

Arguments mkContext {Node}.
Arguments inputParamIdToExpressionMap {Node}.
Arguments maxParamCount {Node}.
Arguments nextParamId {Node}.
Arguments parameterized {Node}.
Arguments newContext {Node}.
Arguments defaultContext {Node}.
Arguments set_parameterized {Node}.
Arguments emplace_back_and_advance {Node}.
Arguments availableParamIds {Node}.
Arguments nextInputParamId {Node}.
Arguments find_if {Node}.
Arguments nextReusableInputParamId {Node}.

Abbreviation Ctx := MatchExpressionParameterizationVisitorContext.
Abbreviation NodePtr := option (only parsing).

(** ** Sequences of requests to one context *)

Section Requests.

Context {Node : Type}.
Variable equivalent : Node -> Node -> bool.

(** One call of a member function of the context. *)
Inductive Call : Type :=
| AvailableParamIds (numIds : Z)
| NextInputParamId (expr : NodePtr Node)
| NextReusableInputParamId (expr : NodePtr Node).

(** What the call returned. *)
Inductive Reply : Type :=
| Available (b : bool)
| ParamId (id : option InputParamId).

Definition call (k : Call) (c : Ctx Node) : option (Reply * Ctx Node) :=
  match k with
  | AvailableParamIds numIds =>
      let '(b, c') := availableParamIds numIds c in Some (Available b, c')
  | NextInputParamId expr =>
      let '(id, c') := nextInputParamId expr c in Some (ParamId id, c')
  | NextReusableInputParamId expr =>
      '(id, c') ← nextReusableInputParamId equivalent expr c;
      Some (ParamId id, c')
  end.

(** The calls of [ks] one after the other, each on the state the one before
    it left; the replies are collected in order. *)
Fixpoint run (ks : list Call) (c : Ctx Node) : option (list Reply * Ctx Node) :=
  match ks with
  | [] => Some ([], c)
  | k :: ks' =>
      '(r, c') ← call k c;
      '(rs, c'') ← run ks' c';
      Some (r :: rs, c'')
  end.

(** The reply that hands out nothing: [false] from [availableParamIds],
    [boost::none] from the other two. *)
Definition refusal (k : Call) : Reply :=
  match k with
  | AvailableParamIds _ => Available false
  | NextInputParamId _ | NextReusableInputParamId _ => ParamId None
  end.

(** The id a call issued: the id it returned when it put a new entry into the
    vector, nothing when it refused or returned the id of an older entry. *)
Definition issuedBy (c : Ctx Node) (r : Reply) (c' : Ctx Node) : list InputParamId :=
  match r with
  | ParamId (Some id) =>
      if (length (inputParamIdToExpressionMap c) <?
          length (inputParamIdToExpressionMap c'))%nat
      then [id] else []
  | _ => []
  end.

(** The ids issued along a sequence of calls, in the order of the calls. *)
Fixpoint issued (ks : list Call) (c : Ctx Node) : option (list InputParamId) :=
  match ks with
  | [] => Some []
  | k :: ks' =>
      '(r, c') ← call k c;
      ids ← issued ks' c';
      Some (issuedBy c r c' ++ ids)
  end.

End Requests.

Arguments Call : clear implicits.

(** ** What the budget allows, in plain integers *)

(** Assigning [n] more ids stays within the limit, if there is one.  The
    limit is on the parameters of the whole query and the ids of a query
    count from 0 (a later tree of a forest continues where the one before
    stopped), so the next id is the number of ids in use. *)
Definition withinBudget {Node} (c : Ctx Node) (n : Z) : Prop :=
  match maxParamCount c with
  | Some limit => nextParamId c + n <= limit
  | None => True
  end.

(** A limit is set and the ids handed out so far have used it up. *)
Definition budgetExhausted {Node} (c : Ctx Node) : Prop :=
  match maxParamCount c with
  | Some limit => limit <= nextParamId c
  | None => False
  end.

(** The ids [base, base+1, ..., base+k-1]. *)
Definition idsFrom (base : InputParamId) (k : nat) : list InputParamId :=
  (λ i : nat, base + Z.of_nat i) <$> seq 0 k.

(** ** The expression nodes *)

(** The classes the visitor has a [visit] overload for, in the order of the
    header. *)
Inductive MatchExpressionClass : Type :=
| AlwaysFalseMatchExpression
| AlwaysTrueMatchExpression
| AndMatchExpression
| BitsAllClearMatchExpression
| BitsAllSetMatchExpression
| BitsAnyClearMatchExpression
| BitsAnySetMatchExpression
| ElemMatchObjectMatchExpression
| ElemMatchValueMatchExpression
| EqualityMatchExpression
| ExistsMatchExpression
| ExprMatchExpression
| GTEMatchExpression
| GTMatchExpression
| GeoMatchExpression
| GeoNearMatchExpression
| InMatchExpression
| InternalBucketGeoWithinMatchExpression
| InternalExprEqMatchExpression
| InternalExprGTMatchExpression
| InternalExprGTEMatchExpression
| InternalExprLTMatchExpression
| InternalExprLTEMatchExpression
| InternalEqHashedKey
| InternalSchemaAllElemMatchFromIndexMatchExpression
| InternalSchemaAllowedPropertiesMatchExpression
| InternalSchemaBinDataEncryptedTypeExpression
| InternalSchemaBinDataFLE2EncryptedTypeExpression
| InternalSchemaBinDataSubTypeExpression
| InternalSchemaCondMatchExpression
| InternalSchemaEqMatchExpression
| InternalSchemaFmodMatchExpression
| InternalSchemaMatchArrayIndexMatchExpression
| InternalSchemaMaxItemsMatchExpression
| InternalSchemaMaxLengthMatchExpression
| InternalSchemaMaxPropertiesMatchExpression
| InternalSchemaMinItemsMatchExpression
| InternalSchemaMinLengthMatchExpression
| InternalSchemaMinPropertiesMatchExpression
| InternalSchemaObjectMatchExpression
| InternalSchemaRootDocEqMatchExpression
| InternalSchemaTypeExpression
| InternalSchemaUniqueItemsMatchExpression
| InternalSchemaXorMatchExpression
| LTEMatchExpression
| LTMatchExpression
| ModMatchExpression
| NorMatchExpression
| NotMatchExpression
| OrMatchExpression
| RegexMatchExpression
| SizeMatchExpression
| TextMatchExpression
| TextNoOpMatchExpression
| TwoDPtInAnnulusExpression
| TypeMatchExpression
| WhereMatchExpression
| WhereNoOpMatchExpression.

(** Modelled from the spec: the literal operands of a node, which the headers
    [expression_leaf.h] and [expression_type.h] (not part of these sources)
    declare.  The spec names the operands that keep a node from being
    parameterized: the minimum-bound and maximum-bound sentinels, null,
    not-a-number, an array, a pattern (in a membership list) and the type code
    that denotes arrays (in a type check); every other operand is [Plain]. *)
Inductive Literal : Type :=
| MinKey
| MaxKey
| Null
| NaN
| Array (elements : list Z)
| Pattern (source : string)
| ArrayTypeCode
| Plain (value : Z).

(** Modelled from the spec: a node of the expression tree ([expression.h] and
    the headers of its subclasses are not part of these sources).  A node has
    its class, its field path, its literal operand or operands, and the places
    where the visitor records the ids it was given: one id for a single-slot
    leaf or a membership test, two for a bit test, a modulo test or a pattern
    match. *)
Record MatchExpression : Type := mkMatchExpression {
  matchClass : MatchExpressionClass;
  path : string;
  operands : list Literal;
  inputParamId : option InputParamId;
  secondInputParamId : option InputParamId
}.

(** The address of a node; [MatchExpression*] is [option Address]. *)
Definition Address : Type := positive.

(** The tree the visitor works on: the nodes by address.  The vector of the
    context holds addresses into it, so an id recorded on a node is seen
    through every reference to that node. *)
Abbreviation Tree := (gmap positive MatchExpression).

(** Modelled from the spec: the setters of the nodes ([setInputParamId] and
    the two-id setters of the bit-test, modulo and regex classes), which
    record the returned id on the node and touch nothing else. *)
Definition setInputParamId (id : option InputParamId) (n : MatchExpression)
    : MatchExpression :=
  {| matchClass := matchClass n; path := path n; operands := operands n;
     inputParamId := id; secondInputParamId := secondInputParamId n |}.

Definition setSecondInputParamId (id : option InputParamId) (n : MatchExpression)
    : MatchExpression :=
  {| matchClass := matchClass n; path := path n; operands := operands n;
     inputParamId := inputParamId n; secondInputParamId := id |}.

(** Modelled from the spec: the literals that disqualify a comparison (the
    comment above the visitor class in the header lists the same ones:
    MinKey, MaxKey, null, NaN, array). *)
Definition disqualifiesComparison (v : Literal) : bool :=
  match v with
  | MinKey | MaxKey | Null | NaN | Array _ => true
  | Pattern _ | ArrayTypeCode | Plain _ => false
  end.

(** Modelled from the spec: the list elements that disqualify a membership
    test (in the header's comment: an array, null or regexp value). *)
Definition disqualifiesIn (v : Literal) : bool :=
  match v with
  | Array _ | Null | Pattern _ => true
  | MinKey | MaxKey | NaN | ArrayTypeCode | Plain _ => false
  end.

(** Modelled from the spec: a type check is left alone when its value denotes
    the array type. *)
Definition disqualifiesType (v : Literal) : bool :=
  match v with
  | ArrayTypeCode => true
  | _ => false
  end.

(** ** The visitor *)

(** The state a visit works on: the context the visitor is bound to
    ([_context]) and the nodes of the tree. *)
Record VisitorState : Type := mkVisitorState {
  context : Ctx Address;
  tree : Tree
}.

(** A visit either fails (a null or dangling pointer was followed) or returns
    a value and the state it left. *)
Definition Visit (A : Type) : Type := VisitorState -> option (A * VisitorState).

Definition ret {A} (a : A) : Visit A := λ s, Some (a, s).

Definition bind {A B} (m : Visit A) (k : A -> Visit B) : Visit B :=
  λ s, match m s with
       | Some (a, s') => k a s'
       | None => None
       end.

Notation "'let*' x ':=' m 'in' k" := (bind m (λ x, k))
  (at level 10, x pattern, m at level 100, k at level 200, only parsing).

Section Visitor.

(** [equivalent] of the node classes, supplied from outside; it does not look
    at the recorded ids. *)
Variable equivalent : Address -> Address -> bool.

(** A call of a member of [_context] that cannot fail. *)
Definition onContext {A} (f : Ctx Address -> A * Ctx Address) : Visit A :=
  λ s, let '(a, c') := f (context s) in
       Some (a, {| context := c'; tree := tree s |}).

(** A call of a member of [_context] that may follow a null pointer. *)
Definition onContextOpt {A} (f : Ctx Address -> option (A * Ctx Address)) : Visit A :=
  λ s, match f (context s) with
       | Some (a, c') => Some (a, {| context := c'; tree := tree s |})
       | None => None
       end.

(** Reading the node behind [expr]. *)
Definition deref (expr : Address) : Visit MatchExpression :=
  λ s, match tree s !! expr with
       | Some n => Some (n, s)
       | None => None
       end.

(** Changing the node behind [expr] in place. *)
Definition modify (expr : Address) (f : MatchExpression -> MatchExpression)
    : Visit unit :=
  λ s, match tree s !! expr with
       | Some n => Some (tt, {| context := context s; tree := <[expr := f n]> (tree s) |})
       | None => None
       end.

(** Modelled from the spec: a multi-slot leaf (the definitions are in
    [expression_parameterization.cpp], not part of these sources) asks
    [availableParamIds(2)] and then, only if that succeeded, makes two
    [nextInputParamId] calls and records both ids. *)
Definition visitTwoSlotExpression (expr : Address) : Visit unit :=
  let* ok := onContext (availableParamIds 2) in
  if ok : bool then
    let* first := onContext (nextInputParamId (Some expr)) in
    let* _ := modify expr (setInputParamId first) in
    let* second := onContext (nextInputParamId (Some expr)) in
    modify expr (setSecondInputParamId second)
  else ret tt.

Definition visitBitTestExpression (expr : Address) : Visit unit :=
  visitTwoSlotExpression expr.

(** Modelled from the spec: a single-slot leaf (defined in
    [expression_parameterization.cpp]) asks for one reusable id unless one of
    its operands disqualifies it, in which case it is skipped. *)
Definition visitSingleSlotExpression (disqualifies : Literal -> bool)
    (expr : Address) : Visit unit :=
  let* n := deref expr in
  if existsb disqualifies (operands n) then ret tt
  else
    let* id := onContextOpt (nextReusableInputParamId equivalent (Some expr)) in
    modify expr (setInputParamId id).

Definition visitComparisonMatchExpression (expr : Address) : Visit unit :=
  visitSingleSlotExpression disqualifiesComparison expr.

(** Modelled from the spec: the membership test (defined in
    [expression_parameterization.cpp]) is one unit with one reusable id, and
    is skipped when its list has an array, a null or a pattern. *)
Definition visitInMatchExpression (expr : Address) : Visit unit :=
  visitSingleSlotExpression disqualifiesIn expr.

(** The [visit] overloads.  Those with an empty body in the header do
    nothing; the others are defined in [expression_parameterization.cpp] and
    follow the policies above. *)
Definition visit (cls : MatchExpressionClass) (expr : Address) : Visit unit :=
  match cls with
  | AlwaysFalseMatchExpression => ret tt
  | AlwaysTrueMatchExpression => ret tt
  | AndMatchExpression => ret tt
  | BitsAllClearMatchExpression => visitBitTestExpression expr
  | BitsAllSetMatchExpression => visitBitTestExpression expr
  | BitsAnyClearMatchExpression => visitBitTestExpression expr
  | BitsAnySetMatchExpression => visitBitTestExpression expr
  | ElemMatchObjectMatchExpression => ret tt
  | ElemMatchValueMatchExpression => ret tt
  | EqualityMatchExpression => visitComparisonMatchExpression expr
  | ExistsMatchExpression => ret tt
  | ExprMatchExpression => ret tt
  | GTEMatchExpression => visitComparisonMatchExpression expr
  | GTMatchExpression => visitComparisonMatchExpression expr
  | GeoMatchExpression => ret tt
  | GeoNearMatchExpression => ret tt
  | InMatchExpression => visitInMatchExpression expr
  | InternalBucketGeoWithinMatchExpression => ret tt
  | InternalExprEqMatchExpression => ret tt
  | InternalExprGTMatchExpression => ret tt
  | InternalExprGTEMatchExpression => ret tt
  | InternalExprLTMatchExpression => ret tt
  | InternalExprLTEMatchExpression => ret tt
  | InternalEqHashedKey => ret tt
  | InternalSchemaAllElemMatchFromIndexMatchExpression => ret tt
  | InternalSchemaAllowedPropertiesMatchExpression => ret tt
  | InternalSchemaBinDataEncryptedTypeExpression => ret tt
  | InternalSchemaBinDataFLE2EncryptedTypeExpression => ret tt
  | InternalSchemaBinDataSubTypeExpression => ret tt
  | InternalSchemaCondMatchExpression => ret tt
  | InternalSchemaEqMatchExpression => ret tt
  | InternalSchemaFmodMatchExpression => ret tt
  | InternalSchemaMatchArrayIndexMatchExpression => ret tt
  | InternalSchemaMaxItemsMatchExpression => ret tt
  | InternalSchemaMaxLengthMatchExpression => ret tt
  | InternalSchemaMaxPropertiesMatchExpression => ret tt
  | InternalSchemaMinItemsMatchExpression => ret tt
  | InternalSchemaMinLengthMatchExpression => ret tt
  | InternalSchemaMinPropertiesMatchExpression => ret tt
  | InternalSchemaObjectMatchExpression => ret tt
  | InternalSchemaRootDocEqMatchExpression => ret tt
  | InternalSchemaTypeExpression => ret tt
  | InternalSchemaUniqueItemsMatchExpression => ret tt
  | InternalSchemaXorMatchExpression => ret tt
  | LTEMatchExpression => visitComparisonMatchExpression expr
  | LTMatchExpression => visitComparisonMatchExpression expr
  | ModMatchExpression => visitTwoSlotExpression expr
  | NorMatchExpression => ret tt
  | NotMatchExpression => ret tt
  | OrMatchExpression => ret tt
  | RegexMatchExpression => visitTwoSlotExpression expr
  | SizeMatchExpression => visitSingleSlotExpression disqualifiesComparison expr
  | TextMatchExpression => ret tt
  | TextNoOpMatchExpression => ret tt
  | TwoDPtInAnnulusExpression => ret tt
  | TypeMatchExpression =>
      visitSingleSlotExpression
        (λ v, disqualifiesType v || disqualifiesComparison v) expr
  | WhereMatchExpression => visitSingleSlotExpression disqualifiesComparison expr
  | WhereNoOpMatchExpression => ret tt
  end.

(** Modelled from the spec: [expr->acceptVisitor(v)] (declared with the node
    classes, not part of these sources) calls the [visit] overload of the
    class of [*expr]. *)
Definition acceptVisitor (expr : Address) : Visit unit :=
  let* n := deref expr in visit (matchClass n) expr.

(** The hooks of [MatchExpressionParameterizationWalker]. *)
Definition preVisit (expr : Address) : Visit unit := acceptVisitor expr.
Definition postVisit (expr : Address) : Visit unit := ret tt.
Definition inVisit (count : Z) (expr : Address) : Visit unit := ret tt.

End Visitor.

(** ** Ranges of the integer types *)

(** Modelled from the spec: [InputParamId] is declared in [expression.h] (not
    part of these sources); the spec makes a slot id a non-negative integer,
    and a signed integer type of at most 64 bits holds it. *)
Definition isParamId (v : Z) : Prop := 0 <= v < 2 ^ 63.

(** A value of the type [InputParamId]. *)
Definition fitsInputParamId (v : Z) : Prop :=
  InputParamId_min <= v <= InputParamId_max.

(** A number of ids passed as the [int numIds]. *)
Definition isIdCount (n : Z) : Prop := 0 <= n < 2 ^ 31.

(** ** A tree for the examples *)

#[global] Instance MatchExpressionClass_eq_dec : EqDecision MatchExpressionClass.
Proof. solve_decision. Defined.

#[global] Instance Literal_eq_dec : EqDecision Literal.
Proof. solve_decision. Defined.

(** Modelled from the spec: the equivalence test of the nodes is supplied from
    outside; the spec describes it as same kind, same field path and same
    operand values.  The examples use this one. *)
Definition structurallyEquivalent (t : Tree) (a b : Address) : bool :=
  match t !! a, t !! b with
  | Some m, Some n =>
      bool_decide (matchClass m = matchClass n)
      && bool_decide (path m = path n)
      && bool_decide (operands m = operands n)
  | _, _ => false
  end.

Definition leaf (cls : MatchExpressionClass) (field : string) (vs : list Literal)
    : MatchExpression :=
  {| matchClass := cls; path := field; operands := vs;
     inputParamId := None; secondInputParamId := None |}.

(** The filter [{$or: [{a: 1}, {a: 1, b: 1}]}] of the comment above
    [nextReusableInputParamId], with the nodes numbered in pre-order. *)
Definition orTree : Tree :=
  list_to_map
    [ (1%positive, leaf OrMatchExpression "" []);
      (2%positive, leaf EqualityMatchExpression "a" [Plain 1]);
      (3%positive, leaf AndMatchExpression "" []);
      (4%positive, leaf EqualityMatchExpression "a" [Plain 1]);
      (5%positive, leaf EqualityMatchExpression "b" [Plain 1]) ].

(** The three requests the visitor makes on [orTree]. *)
Definition orTreeRequests : list (Call Address) :=
  [ NextReusableInputParamId (Some 2%positive);
    NextReusableInputParamId (Some 4%positive);
    NextReusableInputParamId (Some 5%positive) ].

(** The vector is as long as the ids handed out since [base]. *)
Definition lengthInvariant {Node} (base : InputParamId) (c : Ctx Node) : Prop :=
  Z.of_nat (length (inputParamIdToExpressionMap c)) = nextParamId c - base.

(** ** Two runs over corresponding nodes *)

Section Correspondence.

Context {Node1 Node2 : Type}.

(** Which node of the second tree stands where a node of the first does. *)
Variable corresponds : Node1 -> Node2 -> Prop.

(** The same member function, the same count, and node references that are
    both null or point to corresponding nodes. *)
Inductive callsCorrespond : Call Node1 -> Call Node2 -> Prop :=
| available_corresponds (numIds : Z) :
    callsCorrespond (AvailableParamIds numIds) (AvailableParamIds numIds)
| next_corresponds (e1 : NodePtr Node1) (e2 : NodePtr Node2) :
    option_Forall2 corresponds e1 e2 ->
    callsCorrespond (NextInputParamId e1) (NextInputParamId e2)
| reusable_corresponds (e1 : NodePtr Node1) (e2 : NodePtr Node2) :
    option_Forall2 corresponds e1 e2 ->
    callsCorrespond (NextReusableInputParamId e1) (NextReusableInputParamId e2).

(** The same limit, next id and flag, and vectors that hold references to
    corresponding nodes at every index. *)
Definition contextsCorrespond (c1 : Ctx Node1) (c2 : Ctx Node2) : Prop :=
  Forall2 (option_Forall2 corresponds)
    (inputParamIdToExpressionMap c1) (inputParamIdToExpressionMap c2)
  /\ maxParamCount c1 = maxParamCount c2
  /\ nextParamId c1 = nextParamId c2
  /\ parameterized c1 = parameterized c2.

(** Both runs fail, or both return the same values and leave corresponding
    contexts. *)
Definition outcomesCorrespond {A : Type}
    (o1 : option (A * Ctx Node1)) (o2 : option (A * Ctx Node2)) : Prop :=
  match o1, o2 with
  | Some (a1, c1), Some (a2, c2) => a1 = a2 /\ contextsCorrespond c1 c2
  | None, None => True
  | _, _ => False
  end.

End Correspondence.

(** The five comparison classes. *)
Definition isComparisonClass (cls : MatchExpressionClass) : bool :=
  match cls with
  | EqualityMatchExpression | GTEMatchExpression | GTMatchExpression
  | LTEMatchExpression | LTMatchExpression => true
  | _ => false
  end.

(** The four bit-test classes. *)
Definition isBitTestClass (cls : MatchExpressionClass) : bool :=
  match cls with
  | BitsAllClearMatchExpression | BitsAllSetMatchExpression
  | BitsAnyClearMatchExpression | BitsAnySetMatchExpression => true
  | _ => false
  end.

(** A context with limit 1 and first id [base] on which
    [availableParamIds(2)] has failed before any id was handed out. *)
Definition refusedContext {Node} (base : InputParamId) : Ctx Node :=
  {| inputParamIdToExpressionMap := [];
     maxParamCount := Some 1;
     nextParamId := base;
     parameterized := false |}.

(** ** Concrete states for the examples *)

(** A context with limit 2 that has handed out id 0 for node 2 of [orTree]. *)
Definition oneIssued : Ctx Address :=
  {| inputParamIdToExpressionMap := [Some 2%positive];
     maxParamCount := Some 2;
     nextParamId := 1;
     parameterized := true |}.

(** Requests over the nodes 1, 2, ... and the same requests over the nodes
    11, 12, ... of a second tree of the same shape. *)
Definition firstRequests : list (Call Address) :=
  [ NextReusableInputParamId (Some 1%positive);
    AvailableParamIds 2;
    NextInputParamId (Some 2%positive);
    NextReusableInputParamId (Some 1%positive);
    NextReusableInputParamId None;
    NextInputParamId (Some 3%positive) ].

Definition secondRequests : list (Call Address) :=
  [ NextReusableInputParamId (Some 11%positive);
    AvailableParamIds 2;
    NextInputParamId (Some 12%positive);
    NextReusableInputParamId (Some 11%positive);
    NextReusableInputParamId None;
    NextInputParamId (Some 13%positive) ].

Definition shifted (a b : Address) : Prop := b = (a + 10)%positive.

(** A tree of one bit-test node, [{a: {$bitsAllSet: 5}}]. *)
Definition bitTestTree : Tree :=
  {[ 1%positive := leaf BitsAllSetMatchExpression "a" [Plain 5] ]}.

(** The filter [{a: null}] before any visit. *)
Definition nullEquality : VisitorState :=
  {| context := defaultContext;
     tree := {[ 1%positive := leaf EqualityMatchExpression "a" [Null] ]} |}.

(** ** Further vocabulary for sequences of requests *)

(** A value of type [size_t]. *)
Definition isSizeT (v : Z) : Prop := 0 <= v < size_t_modulus.

(** The reply of a call that was not refused: [true] from
    [availableParamIds], an id from [nextInputParamId] and from
    [nextReusableInputParamId] on a node; a null node gets [boost::none] from
    [nextReusableInputParamId] in every state. *)
Definition granted {Node} (k : Call Node) (r : Reply) : Prop :=
  match k with
  | AvailableParamIds _ => r = Available true
  | NextInputParamId _ => exists id, r = ParamId (Some id)
  | NextReusableInputParamId (Some _) => exists id, r = ParamId (Some id)
  | NextReusableInputParamId None => r = ParamId None
  end.

(** The entry of the vector that answers a request: the very reference passed
    to [nextInputParamId]; for [nextReusableInputParamId] the node itself or a
    node [m] with [m->equivalent(expr)]. *)
Definition servedBy {Node} (equivalent : Node -> Node -> bool)
    (k : Call Node) (entry : NodePtr Node) : Prop :=
  match k with
  | AvailableParamIds _ => False
  | NextInputParamId expr => entry = expr
  | NextReusableInputParamId expr =>
      exists e m, expr = Some e /\ entry = Some m
                  /\ (m = e \/ equivalent m e = true)
  end.

(** An id in the reply is an index into the vector [v], and the entry there
    answers the request. *)
Definition indexesEntry {Node} (equivalent : Node -> Node -> bool)
    (v : list (NodePtr Node)) (k : Call Node) (r : Reply) : Prop :=
  forall id, r = ParamId (Some id) ->
    0 <= id
    /\ exists entry, v !! Z.to_nat id = Some entry /\ servedBy equivalent k entry.

(** A call that puts a null reference into the vector. *)
Definition storesNull {Node} (k : Call Node) : Prop :=
  k = NextInputParamId None.

(** A context without limit that has handed out ids 0 and 1. *)
Definition twoIssuedUnlimited : Ctx Address :=
  {| inputParamIdToExpressionMap := [Some 2%positive; Some 5%positive];
     maxParamCount := None;
     nextParamId := 2;
     parameterized := true |}.

(** A context whose vector holds a null reference, as
    [nextInputParamId(nullptr)] leaves it. *)
Definition nullStored : Ctx Address :=
  {| inputParamIdToExpressionMap := [Some 2%positive; None];
     maxParamCount := None;
     nextParamId := 2;
     parameterized := true |}.

(** * Properties of the context *)

Lemma to_size_t_small (v : Z) : 0 <= v < size_t_modulus -> to_size_t v = v.
Proof. intros Hv. unfold to_size_t. by apply Z.mod_small. Qed.

Lemma size_t_add_small (a b : Z) :
  0 <= a -> 0 <= b -> a + b < size_t_modulus -> size_t_add a b = a + b.
Proof. intros Ha Hb Hab. unfold size_t_add. apply Z.mod_small. lia. Qed.

Lemma isParamId_size_t (v : Z) : isParamId v -> to_size_t v = v.
Proof.
  intros [H0 H1]. apply to_size_t_small. split; [done|].
  unfold size_t_modulus, size_t_bits. lia.
Qed.

Lemma budget_sum_exact (v n : Z) :
  isParamId v -> isIdCount n -> size_t_add (to_size_t v) (to_size_t n) = v + n.
Proof.
  intros Hv Hn. rewrite (isParamId_size_t v Hv).
  destruct Hv as [Hv0 Hv1], Hn as [Hn0 Hn1].
  rewrite (to_size_t_small n); [|unfold size_t_modulus, size_t_bits; lia].
  apply size_t_add_small; [done..|]. unfold size_t_modulus, size_t_bits. lia.
Qed.

Lemma to_InputParamId_fits (v : Z) : fitsInputParamId v -> to_InputParamId v = v.
Proof.
  unfold fitsInputParamId, to_InputParamId, InputParamId_min, InputParamId_max,
    InputParamId_bits.
  intros Hv. rewrite Z.mod_small; lia.
Qed.

Lemma to_InputParamId_succ (v : Z) :
  fitsInputParamId v -> v < InputParamId_max -> to_InputParamId (v + 1) = v + 1.
Proof.
  intros [Hlo Hhi] Hlt. apply to_InputParamId_fits. split; lia.
Qed.

Section ContextFacts.

Context {Node : Type}.
Variable equivalent : Node -> Node -> bool.

Implicit Types (c : Ctx Node) (expr : NodePtr Node).

Lemma set_parameterized_false_id c :
  parameterized c = false -> set_parameterized false c = c.
Proof. destruct c; simpl; intros ->; reflexivity. Qed.

(** C10: [nextReusableInputParamId(nullptr)] returns [boost::none] and leaves
    the vector, the next id, the limit and the flag as they were, whatever the
    state of the context. *)
Theorem nextReusableInputParamId_null c :
  nextReusableInputParamId equivalent None c = Some (None, c).
Proof. unfold nextReusableInputParamId. by destruct (parameterized c). Qed.

(** C2: on a context whose next id is a valid slot id, [nextInputParamId]
    has three cases.  Flag false: returns nothing, state unchanged.  Flag
    true, budget set and used up: returns nothing and only the flag changes,
    to false.  Otherwise: returns the next id and appends the node reference
    to the vector, and, when the next id is below the largest value of the
    id type (so that [nextParamId++] does not overflow), the next id advances
    by one. *)
Theorem nextInputParamId_cases expr c :
  isParamId (nextParamId c) ->
  (parameterized c = false -> nextInputParamId expr c = (None, c))
  /\ (parameterized c = true -> budgetExhausted c ->
      nextInputParamId expr c =
        (None,
         {| inputParamIdToExpressionMap := inputParamIdToExpressionMap c;
            maxParamCount := maxParamCount c;
            nextParamId := nextParamId c;
            parameterized := false |}))
  /\ (parameterized c = true -> ~ budgetExhausted c ->
      nextParamId c < InputParamId_max ->
      nextInputParamId expr c =
        (Some (nextParamId c),
         {| inputParamIdToExpressionMap := inputParamIdToExpressionMap c ++ [expr];
            maxParamCount := maxParamCount c;
            nextParamId := nextParamId c + 1;
            parameterized := true |})).
Proof.
  intros Hid. unfold nextInputParamId, budgetExhausted, emplace_back_and_advance.
  rewrite (isParamId_size_t _ Hid).
  assert (nextParamId c < InputParamId_max ->
          to_InputParamId (nextParamId c + 1) = nextParamId c + 1) as Hsucc.
  { intros Hlt. apply to_InputParamId_succ; [|done].
    destruct Hid as [H0 _]. unfold fitsInputParamId, InputParamId_min,
      InputParamId_max, InputParamId_bits in *. lia. }
  destruct c as [tbl [limit|] next flag]; simpl in *.
  - destruct (Z.leb_spec limit next); (split; [|split]); intros; subst;
      simpl; rewrite ?Hsucc by done; try done; lia.
  - (split; [|split]); intros; subst; simpl; rewrite ?Hsucc by done; done.
Qed.

(** C3: for a count [n] of ids and a context whose next id is a valid slot
    id, [availableParamIds n] returns true exactly when the flag is true and
    [n] more ids stay within the budget; and when [n] more ids would exceed
    the budget it returns false and leaves the flag false, nothing else
    changed. *)
Theorem availableParamIds_iff (n : Z) c :
  isParamId (nextParamId c) -> isIdCount n ->
  ((availableParamIds n c).1 = true <-> parameterized c = true /\ withinBudget c n)
  /\ (~ withinBudget c n ->
      availableParamIds n c =
        (false,
         {| inputParamIdToExpressionMap := inputParamIdToExpressionMap c;
            maxParamCount := maxParamCount c;
            nextParamId := nextParamId c;
            parameterized := false |})).
Proof.
  intros Hid Hn. unfold availableParamIds, withinBudget.
  rewrite (budget_sum_exact _ _ Hid Hn).
  destruct c as [tbl [limit|] next [|]]; simpl in *.
  - destruct (Z.ltb_spec limit (next + n)); simpl.
    + split; [|done]. split; [done|]. intros [_ ?]. lia.
    + split; [|intros ?; lia]. split; [done|]. done.
  - split; [|done]. split; [done|]. intros [? _]. done.
  - split; [tauto|]. intros []. exact I.
  - split; [|intros []; exact I]. split; [done|]. intros [? _]. done.
Qed.

End ContextFacts.

(** * Properties of sequences of requests *)

Lemma idsFrom_S (base : InputParamId) (k : nat) :
  idsFrom base (S k) = base :: idsFrom (base + 1) k.
Proof.
  unfold idsFrom. simpl. f_equal; [f_equal; lia|].
  rewrite <- seq_shift, <- list_fmap_compose.
  apply list_fmap_ext. intros _ i _. simpl. lia.
Qed.

Lemma idsFrom_lookup (base : InputParamId) (k i : nat) :
  (i < k)%nat -> idsFrom base k !! i = Some (base + Z.of_nat i).
Proof.
  intros Hi. unfold idsFrom. rewrite list_lookup_fmap.
  by rewrite (lookup_seq_lt 0 k i Hi).
Qed.

Lemma idsFrom_strictly_increasing (base : InputParamId) (k i j : nat) (x y : Z) :
  (i < j)%nat -> idsFrom base k !! i = Some x -> idsFrom base k !! j = Some y ->
  x < y.
Proof.
  intros Hij Hi Hj.
  assert (j < k)%nat as Hjk.
  { apply lookup_lt_Some in Hj. unfold idsFrom in Hj.
    by rewrite length_fmap, length_seq in Hj. }
  rewrite idsFrom_lookup in Hi by lia. rewrite idsFrom_lookup in Hj by lia.
  injection Hi as <-. injection Hj as <-. lia.
Qed.

Section RequestFacts.

Context {Node : Type}.
Variable equivalent : Node -> Node -> bool.

Implicit Types (c : Ctx Node) (k : Call Node) (ks : list (Call Node)).

Lemma call_refused k c :
  parameterized c = false -> call equivalent k c = Some (refusal k, c).
Proof.
  intros Hp. destruct k; simpl;
    unfold availableParamIds, nextInputParamId, nextReusableInputParamId;
    by rewrite Hp.
Qed.

Lemma run_refused ks c :
  parameterized c = false -> run equivalent ks c = Some (refusal <$> ks, c).
Proof.
  intros Hp. induction ks as [|k ks IH]; simpl; [done|].
  rewrite (call_refused k c Hp). simpl. by rewrite IH.
Qed.

Lemma availableParamIds_effect (n : Z) c :
  (availableParamIds n c).2 = c
  \/ (parameterized c = true
      /\ availableParamIds n c = (false, set_parameterized false c)).
Proof.
  unfold availableParamIds.
  destruct (parameterized c); simpl; [|by left].
  destruct (maxParamCount c) as [limit|]; [|by left].
  destruct (limit <? _); [by right|by left].
Qed.

Lemma nextInputParamId_effect (expr : NodePtr Node) c :
  nextInputParamId expr c = (None, c)
  \/ (parameterized c = true
      /\ nextInputParamId expr c = (None, set_parameterized false c))
  \/ (parameterized c = true
      /\ nextInputParamId expr c =
           (Some (nextParamId c), emplace_back_and_advance expr c)).
Proof.
  unfold nextInputParamId.
  destruct (parameterized c); simpl; [|by left].
  destruct (maxParamCount c) as [limit|]; [|by right; right].
  destruct (limit <=? _); [by right; left|by right; right].
Qed.

Lemma nextReusableInputParamId_effect (expr : NodePtr Node) c id c' :
  nextReusableInputParamId equivalent expr c = Some (id, c') ->
  c' = c \/ (id, c') = nextInputParamId expr c.
Proof.
  unfold nextReusableInputParamId.
  destruct (parameterized c); simpl; [|intros [= <- <-]; by left].
  destruct expr as [e|]; simpl; [|intros [= <- <-]; by left].
  destruct (find_if _ _) as [it|]; simpl; [|done].
  destruct (it =? _)%nat; [intros [= <-]; by right|intros [= <- <-]; by left].
Qed.

(** What one call can do to the state: nothing, clear the flag, or append one
    entry and advance the next id, in which case it returns the old next id. *)
Lemma call_effect k c r c' :
  call equivalent k c = Some (r, c') ->
  (c' = c \/ (parameterized c = true /\ c' = set_parameterized false c))
  \/ (parameterized c = true
      /\ r = ParamId (Some (nextParamId c))
      /\ exists expr, c' = emplace_back_and_advance expr c).
Proof.
  destruct k as [n|expr|expr]; simpl.
  - destruct (availableParamIds_effect n c) as [H|[Hp H]];
      destruct (availableParamIds n c) as [b c1]; simpl in *;
      intros [= <- <-]; [by left; left|].
    injection H as _ ->. by left; right.
  - destruct (nextInputParamId_effect expr c) as [H|[[Hp H]|[Hp H]]];
      rewrite H; intros [= <- <-]; [by left; left|by left; right|].
    right. eauto.
  - destruct (nextReusableInputParamId equivalent expr c) as [[id c1]|] eqn:Hr;
      simpl; [|done].
    intros [= <- <-].
    destruct (nextReusableInputParamId_effect _ _ _ _ Hr) as [->|Hn];
      [by left; left|].
    destruct (nextInputParamId_effect expr c) as [H|[[Hp H]|[Hp H]]];
      rewrite H in Hn; injection Hn as -> ->;
      [by left; left|by left; right|].
    right. eauto.
Qed.

Lemma call_flag_monotone k c r c' :
  call equivalent k c = Some (r, c') ->
  parameterized c' = true -> parameterized c = true.
Proof.
  intros Hcall Hp.
  destruct (call_effect _ _ _ _ Hcall) as [[->|[? _]]|[? _]]; done.
Qed.

Lemma run_flag_monotone ks c rs c' :
  run equivalent ks c = Some (rs, c') ->
  parameterized c' = true -> parameterized c = true.
Proof.
  revert c rs c'. induction ks as [|k ks IH]; simpl; intros c rs c'.
  - by intros [= _ <-].
  - destruct (call equivalent k c) as [[r c1]|] eqn:Hcall; simpl; [|done].
    destruct (run equivalent ks c1) as [[rs1 c2]|] eqn:Hrun; simpl; [|done].
    intros [= _ <-] Hp. eapply call_flag_monotone; [done|]. by eapply IH.
Qed.

(** C4: the flag is true in a new context; over any sequence of calls of the
    three member functions, a flag that is true afterwards was true before
    (it never goes from false to true); and from a state whose flag is false
    every call of any further sequence returns no id ([false] from
    [availableParamIds]) and the whole state, vector and next id included,
    stays as it is. *)
Theorem parameterized_sticky (limit : option Z) (base : InputParamId) ks c :
  parameterized (newContext (Node:=Node) limit base) = true
  /\ (forall rs c', run equivalent ks c = Some (rs, c') ->
        parameterized c' = true -> parameterized c = true)
  /\ (parameterized c = false ->
        run equivalent ks c = Some (refusal <$> ks, c)).
Proof.
  split; [done|]. split.
  - intros rs c'. apply run_flag_monotone.
  - apply run_refused.
Qed.

Lemma call_extends k c r c' :
  call equivalent k c = Some (r, c') ->
  inputParamIdToExpressionMap c `prefix_of` inputParamIdToExpressionMap c'
  /\ maxParamCount c' = maxParamCount c.
Proof.
  intros Hcall.
  destruct (call_effect _ _ _ _ Hcall)
    as [[->|[_ ->]]|(_ & _ & expr & ->)]; simpl; [done|done|].
  split; [by apply prefix_app_r|done].
Qed.

Lemma run_extends ks c rs c' :
  run equivalent ks c = Some (rs, c') ->
  inputParamIdToExpressionMap c `prefix_of` inputParamIdToExpressionMap c'
  /\ maxParamCount c' = maxParamCount c.
Proof.
  revert c rs c'. induction ks as [|k ks IH]; simpl; intros c rs c'.
  - by intros [= _ <-].
  - destruct (call equivalent k c) as [[r c1]|] eqn:Hcall; simpl; [|done].
    destruct (run equivalent ks c1) as [[rs1 c2]|] eqn:Hrun; simpl; [|done].
    intros [= _ <-].
    destruct (call_extends _ _ _ _ Hcall) as (Hpre1 & Hlim1).
    destruct (IH _ _ _ Hrun) as (Hpre2 & Hlim2).
    split; [by etrans|congruence].
Qed.

(** The increment of a call that appends does not overflow when the vector it
    leaves still fits, counted from [base], into the id type. *)
Lemma emplace_back_lengthInvariant (base : InputParamId) (expr : NodePtr Node) c :
  fitsInputParamId base ->
  lengthInvariant base c ->
  fitsInputParamId
    (base + Z.of_nat (length (inputParamIdToExpressionMap c ++ [expr]))) ->
  nextParamId (emplace_back_and_advance expr c) = nextParamId c + 1
  /\ lengthInvariant base (emplace_back_and_advance expr c).
Proof.
  unfold lengthInvariant. intros [Hlo Hhi] Hinv. rewrite length_app. simpl.
  intros [_ Hfit].
  assert (to_InputParamId (nextParamId c + 1) = nextParamId c + 1) as Hsucc
    by (apply to_InputParamId_fits; split; lia).
  rewrite length_app. simpl. rewrite Hsucc. lia.
Qed.

Lemma run_issued base ks c rs c' :
  fitsInputParamId base ->
  lengthInvariant base c ->
  run equivalent ks c = Some (rs, c') ->
  fitsInputParamId (base + Z.of_nat (length (inputParamIdToExpressionMap c'))) ->
  lengthInvariant base c'
  /\ (length (inputParamIdToExpressionMap c) <=
      length (inputParamIdToExpressionMap c'))%nat
  /\ issued equivalent ks c =
       Some (idsFrom (nextParamId c)
               (length (inputParamIdToExpressionMap c') -
                length (inputParamIdToExpressionMap c))).
Proof.
  intros Hbase. revert c rs c'.
  induction ks as [|k ks IH]; simpl; intros c rs c' Hinv.
  - intros [= _ <-] _. split; [done|]. split; [done|].
    by rewrite Nat.sub_diag.
  - destruct (call equivalent k c) as [[r c1]|] eqn:Hcall; simpl; [|done].
    destruct (run equivalent ks c1) as [[rs1 c2]|] eqn:Hrun; simpl; [|done].
    intros [= _ <-] Hfit.
    destruct (run_extends _ _ _ _ Hrun) as [Hpre _].
    apply prefix_length in Hpre.
    destruct (call_effect _ _ _ _ Hcall) as [Hsame|(Hp & -> & expr & ->)].
    + assert (inputParamIdToExpressionMap c1 = inputParamIdToExpressionMap c
              /\ nextParamId c1 = nextParamId c) as [Htbl Hnext]
        by (destruct Hsame as [->|[_ ->]]; done).
      assert (lengthInvariant base c1) as Hinv1
        by (unfold lengthInvariant; by rewrite Htbl, Hnext).
      destruct (IH _ _ _ Hinv1 Hrun Hfit) as (Hinv2 & Hle & Hiss).
      rewrite Htbl, Hnext in *. rewrite Hiss. simpl.
      split; [done|]. split; [done|].
      unfold issuedBy. destruct r as [b|[id|]]; simpl; [done| |done].
      by rewrite Htbl, Nat.ltb_irrefl.
    + destruct (emplace_back_lengthInvariant base expr c Hbase Hinv)
        as [Hnext Hinv1].
      { destruct Hbase, Hfit. simpl in Hpre. split; lia. }
      destruct (IH _ _ _ Hinv1 Hrun Hfit) as (Hinv2 & Hle & Hiss).
      rewrite Hiss, Hnext.
      cbn [inputParamIdToExpressionMap emplace_back_and_advance] in *.
      rewrite length_app in *. simpl in *.
      split; [done|]. split; [lia|].
      destruct (Nat.ltb_spec (length (inputParamIdToExpressionMap c))
                  (length (inputParamIdToExpressionMap c ++ [expr])));
        [|rewrite length_app in *; simpl in *; lia].
      simpl. f_equal. rewrite <- idsFrom_S. f_equal. lia.
Qed.

(** C5: after any sequence of calls on a new context with first id [base],
    as long as the ids handed out stay within the id type ([base] and [base]
    plus the length of the vector are values of it, so that no
    [nextParamId++] overflows), the length of the vector is the next id minus
    [base], and the ids issued along the sequence (each returned by the call
    that created an entry) are, in the order of issue, [base], [base+1], ...,
    up to [base+k-1] where [k] is the length of the vector: increasing by one
    each time, none issued twice, none left out. *)
Theorem issued_ids_contiguous (limit : option Z) (base : InputParamId) ks rs c :
  fitsInputParamId base ->
  run equivalent ks (newContext limit base) = Some (rs, c) ->
  fitsInputParamId (base + Z.of_nat (length (inputParamIdToExpressionMap c))) ->
  Z.of_nat (length (inputParamIdToExpressionMap c)) = nextParamId c - base
  /\ issued equivalent ks (newContext limit base) =
       Some (idsFrom base (length (inputParamIdToExpressionMap c))).
Proof.
  intros Hbase Hrun Hfit.
  assert (lengthInvariant base (newContext (Node:=Node) limit base)) as Hinv
    by (unfold lengthInvariant; simpl; lia).
  destruct (run_issued _ _ _ _ _ Hbase Hinv Hrun Hfit) as (Hinv' & _ & Hiss).
  split; [exact Hinv'|]. rewrite Hiss. simpl. by rewrite Nat.sub_0_r.
Qed.

End RequestFacts.

(** * Two runs over corresponding nodes *)

Section Determinism.

Context {Node1 Node2 : Type}.
Variable equivalent1 : Node1 -> Node1 -> bool.
Variable equivalent2 : Node2 -> Node2 -> bool.
Variable corresponds : Node1 -> Node2 -> Prop.

(** The equivalence tests answer alike on corresponding nodes. *)
Hypothesis answers_alike : forall a1 a2 b1 b2,
  corresponds a1 a2 -> corresponds b1 b2 ->
  equivalent1 a1 b1 = equivalent2 a2 b2.

Abbreviation ptrs := (option_Forall2 corresponds).
Abbreviation ctxs := (contextsCorrespond corresponds).

Lemma find_if_corresponds (p1 : Node1 -> bool) (p2 : Node2 -> bool) v1 v2 :
  (forall m1 m2, corresponds m1 m2 -> p1 m1 = p2 m2) ->
  Forall2 ptrs v1 v2 ->
  find_if p1 v1 = find_if p2 v2.
Proof.
  intros Hp Hv. induction Hv as [|e1 e2 v1 v2 He _ IH]; simpl; [done|].
  destruct He as [m1 m2 Hm|]; [|done].
  rewrite (Hp _ _ Hm), IH. done.
Qed.

Lemma set_parameterized_corresponds b c1 c2 :
  ctxs c1 c2 -> ctxs (set_parameterized b c1) (set_parameterized b c2).
Proof. intros (? & ? & ? & ?). by repeat split. Qed.

Lemma emplace_back_corresponds e1 e2 c1 c2 :
  ptrs e1 e2 -> ctxs c1 c2 ->
  ctxs (emplace_back_and_advance e1 c1) (emplace_back_and_advance e2 c2).
Proof.
  intros He (Ht & Hm & Hn & Hp). repeat split; simpl; [|done|by rewrite Hn|done].
  apply Forall2_app; [done|]. by constructor.
Qed.

Lemma availableParamIds_corresponds n c1 c2 :
  ctxs c1 c2 ->
  outcomesCorrespond corresponds
    (Some (availableParamIds n c1)) (Some (availableParamIds n c2)).
Proof.
  intros Hc. pose proof Hc as (Ht & Hm & Hn & Hp).
  unfold availableParamIds. rewrite Hm, Hn, Hp.
  destruct (parameterized c2); simpl; [|done].
  destruct (maxParamCount c2) as [limit|]; [|done].
  destruct (limit <? _); simpl; [|done].
  split; [done|]. by apply set_parameterized_corresponds.
Qed.

Lemma nextInputParamId_corresponds e1 e2 c1 c2 :
  ptrs e1 e2 -> ctxs c1 c2 ->
  outcomesCorrespond corresponds
    (Some (nextInputParamId e1 c1)) (Some (nextInputParamId e2 c2)).
Proof.
  intros He Hc. pose proof Hc as (Ht & Hm & Hn & Hp).
  unfold nextInputParamId. rewrite Hm, Hn, Hp.
  destruct (parameterized c2); simpl; [|done].
  destruct (maxParamCount c2) as [limit|].
  - destruct (limit <=? _); simpl; (split; [done|]).
    + by apply set_parameterized_corresponds.
    + by apply emplace_back_corresponds.
  - simpl. split; [done|]. by apply emplace_back_corresponds.
Qed.

Lemma nextReusableInputParamId_corresponds e1 e2 c1 c2 :
  ptrs e1 e2 -> ctxs c1 c2 ->
  outcomesCorrespond corresponds
    (nextReusableInputParamId equivalent1 e1 c1)
    (nextReusableInputParamId equivalent2 e2 c2).
Proof.
  intros He Hc. pose proof Hc as (Ht & Hm & Hn & Hp).
  unfold nextReusableInputParamId. rewrite Hp.
  destruct (parameterized c2); simpl; [|done].
  destruct He as [m1 m2 Hm12|]; simpl; [|done].
  rewrite (find_if_corresponds (λ m, equivalent1 m m1) (λ m, equivalent2 m m2)
             _ _ (λ a1 a2 Ha, answers_alike a1 a2 m1 m2 Ha Hm12) Ht).
  destruct (find_if _ (inputParamIdToExpressionMap c2)) as [it|]; simpl; [|done].
  rewrite (Forall2_length _ _ _ Ht).
  destruct (it =? _)%nat; [|done].
  apply nextInputParamId_corresponds; [by constructor|done].
Qed.

Lemma call_corresponds k1 k2 c1 c2 :
  callsCorrespond corresponds k1 k2 -> ctxs c1 c2 ->
  outcomesCorrespond corresponds (call equivalent1 k1 c1) (call equivalent2 k2 c2).
Proof.
  intros Hk Hc. destruct Hk as [n|e1 e2 He|e1 e2 He]; simpl.
  - pose proof (availableParamIds_corresponds n _ _ Hc) as H.
    destruct (availableParamIds n c1), (availableParamIds n c2).
    simpl in *. destruct H as [-> ?]. done.
  - pose proof (nextInputParamId_corresponds _ _ _ _ He Hc) as H.
    destruct (nextInputParamId e1 c1), (nextInputParamId e2 c2).
    simpl in *. destruct H as [-> ?]. done.
  - pose proof (nextReusableInputParamId_corresponds _ _ _ _ He Hc) as H.
    destruct (nextReusableInputParamId equivalent1 e1 c1) as [[]|],
             (nextReusableInputParamId equivalent2 e2 c2) as [[]|];
      simpl in *; try done.
    destruct H as [-> ?]. done.
Qed.

Lemma run_corresponds ks1 ks2 c1 c2 :
  Forall2 (callsCorrespond corresponds) ks1 ks2 -> ctxs c1 c2 ->
  outcomesCorrespond corresponds (run equivalent1 ks1 c1) (run equivalent2 ks2 c2).
Proof.
  intros Hks. revert c1 c2.
  induction Hks as [|k1 k2 ks1 ks2 Hk _ IH]; intros c1 c2 Hc; simpl; [done|].
  pose proof (call_corresponds _ _ _ _ Hk Hc) as H.
  destruct (call equivalent1 k1 c1) as [[r1 d1]|],
           (call equivalent2 k2 c2) as [[r2 d2]|]; simpl in *; try done.
  destruct H as [-> Hd]. specialize (IH _ _ Hd).
  destruct (run equivalent1 ks1 d1) as [[rs1 f1]|],
           (run equivalent2 ks2 d2) as [[rs2 f2]|]; simpl in *; try done.
  destruct IH as [-> ?]. done.
Qed.

(** C7: two new contexts with the same limit and the same first id, given
    call sequences that correspond call by call (same member function, same
    count, references to corresponding nodes) where the equivalence tests
    answer alike on corresponding nodes: after any number [steps] of calls
    both runs have returned the same values (the same ids, the same booleans)
    and their vectors hold corresponding nodes at the same indices, with the
    same next id and flag. *)
Theorem runs_agree (limit : option Z) (base : InputParamId) ks1 ks2 (steps : nat) :
  Forall2 (callsCorrespond corresponds) ks1 ks2 ->
  outcomesCorrespond corresponds
    (run equivalent1 (take steps ks1) (newContext limit base))
    (run equivalent2 (take steps ks2) (newContext limit base)).
Proof.
  intros Hks. apply run_corresponds.
  - by apply Forall2_take.
  - repeat split. constructor.
Qed.

End Determinism.

(** With one set of nodes and one equivalence test the correspondence is
    equality, and corresponding outcomes are equal outcomes. *)
Lemma contextsCorrespond_eq {Node} (c1 c2 : Ctx Node) :
  contextsCorrespond eq c1 c2 -> c1 = c2.
Proof.
  destruct c1 as [t1 m1 n1 p1], c2 as [t2 m2 n2 p2].
  intros (Ht & Hm & Hn & Hp). simpl in *. subst. f_equal.
  induction Ht as [|e1 e2 v1 v2 He _ IH]; [done|].
  f_equal; [|done]. by destruct He as [? ? ->|].
Qed.

(** * Reuse of an id *)

Section ReuseFacts.

Context {Node : Type}.
Variable equivalent : Node -> Node -> bool.

(** What a successful scan found: an entry at the returned offset that
    satisfies the predicate, and before it only entries that do not. *)
Lemma find_if_first (pred : Node -> bool) (v : list (NodePtr Node)) (it : nat) :
  find_if pred v = Some it -> (it < length v)%nat ->
  (exists m, v !! it = Some (Some m) /\ pred m = true)
  /\ (forall j, (j < it)%nat ->
        exists m, v !! j = Some (Some m) /\ pred m = false).
Proof.
  revert it. induction v as [|[m|] v IH]; simpl; intros it; [lia| |done].
  destruct (pred m) eqn:Hm.
  - intros [= <-] _. split; [eauto|]. intros j Hj. lia.
  - destruct (find_if pred v) as [it'|]; simpl; [|done].
    intros [= <-] Hlt. destruct (IH it' eq_refl ltac:(lia)) as [Hat Hbefore].
    split; [done|]. intros [|j] Hj; simpl; [eauto|]. apply Hbefore. lia.
Qed.

(** On a match the call returns the offset of the matching entry in the
    vector and changes nothing. *)
Lemma nextReusableInputParamId_found (e : Node) (c : Ctx Node) (it : nat) :
  parameterized c = true ->
  find_if (λ m, equivalent m e) (inputParamIdToExpressionMap c) = Some it ->
  (it < length (inputParamIdToExpressionMap c))%nat ->
  nextReusableInputParamId equivalent (Some e) c = Some (Some (Z.of_nat it), c).
Proof.
  intros Hp Hfind Hlt. unfold nextReusableInputParamId.
  rewrite Hp, Hfind. simpl.
  destruct (Nat.eqb_spec it (length (inputParamIdToExpressionMap c))); [lia|done].
Qed.

(** In a context that started at [base] (and has not run out of the id type),
    the entry at offset [it] was issued the id [base + it] (see
    [issued_ids_contiguous]), while a later request for an equivalent node
    gets [it]: the two agree only for [base = 0]. *)
Lemma reused_id_is_offset (limit : option Z) (base : InputParamId)
    (ks : list (Call Node)) rs (c : Ctx Node) (e : Node) (it : nat) :
  fitsInputParamId base ->
  run equivalent ks (newContext limit base) = Some (rs, c) ->
  fitsInputParamId (base + Z.of_nat (length (inputParamIdToExpressionMap c))) ->
  parameterized c = true ->
  find_if (λ m, equivalent m e) (inputParamIdToExpressionMap c) = Some it ->
  (it < length (inputParamIdToExpressionMap c))%nat ->
  nextReusableInputParamId equivalent (Some e) c = Some (Some (Z.of_nat it), c)
  /\ (exists ids, issued equivalent ks (newContext limit base) = Some ids
                  /\ ids !! it = Some (base + Z.of_nat it)).
Proof.
  intros Hbase Hrun Hfit Hp Hfind Hlt. split.
  - by apply nextReusableInputParamId_found.
  - assert (lengthInvariant base (newContext (Node:=Node) limit base)) as Hinv
      by (unfold lengthInvariant; simpl; lia).
    destruct (run_issued equivalent _ _ _ _ _ Hbase Hinv Hrun Hfit)
      as (_ & _ & Hiss).
    eexists. split; [exact Hiss|]. simpl. rewrite Nat.sub_0_r.
    by apply idsFrom_lookup.
Qed.

End ReuseFacts.

(** C1: the filter [{$or: [{a: 1}, {a: 1, b: 1}]}] on a context that starts
    at id 5.  The first [a: 1] is issued id 5; the request for the second,
    equivalent [a: 1] creates no entry and consumes no id, but it returns 0,
    the offset of the entry in the vector, not the id 5 that the entry was
    issued; [b: 1] is then issued id 6. *)
Theorem reuse_after_nonzero_start :
  run (structurallyEquivalent orTree) orTreeRequests (newContext None 5)
  = Some ([ParamId (Some 5); ParamId (Some 0); ParamId (Some 6)],
          {| inputParamIdToExpressionMap := [Some 2%positive; Some 5%positive];
             maxParamCount := None;
             nextParamId := 7;
             parameterized := true |})
  /\ issued (structurallyEquivalent orTree) orTreeRequests (newContext None 5)
     = Some [5; 6].
Proof. split; vm_compute; reflexivity. Qed.

(** With the default first id the same requests get ids 0, 0 and 1: here the
    offset and the issued id coincide. *)
Lemma reuse_after_zero_start :
  run (structurallyEquivalent orTree) orTreeRequests defaultContext
  = Some ([ParamId (Some 0); ParamId (Some 0); ParamId (Some 1)],
          {| inputParamIdToExpressionMap := [Some 2%positive; Some 5%positive];
             maxParamCount := None;
             nextParamId := 2;
             parameterized := true |}).
Proof. vm_compute; reflexivity. Qed.

(** * Properties of the visitor *)

Section VisitorFacts.

Variable equivalent : Address -> Address -> bool.

Lemma existsb_elem_of {A} (f : A -> bool) (l : list A) (x : A) :
  x ∈ l -> f x = true -> existsb f l = true.
Proof.
  induction 1 as [x l|x y l _ IH]; simpl; intros Hf.
  - by rewrite Hf.
  - rewrite (IH Hf). by destruct (f y).
Qed.

Lemma visitSingleSlotExpression_skip (disqualifies : Literal -> bool)
    (expr : Address) (s : VisitorState) (n : MatchExpression) :
  tree s !! expr = Some n ->
  existsb disqualifies (operands n) = true ->
  visitSingleSlotExpression equivalent disqualifies expr s = Some (tt, s).
Proof.
  intros Hn Hd. unfold visitSingleSlotExpression, bind, deref.
  rewrite Hn, Hd. done.
Qed.

(** C8: the [visit] overload for [InternalEqHashedKey] succeeds and leaves the
    whole state as it was: the context (vector, next id, limit, flag) and
    every node of the tree, the visited one included, so no id is assigned. *)
Theorem visit_InternalEqHashedKey (expr : Address) (s : VisitorState) :
  visit equivalent InternalEqHashedKey expr s = Some (tt, s).
Proof. reflexivity. Qed.

(** The same through the walker: [preVisit] on a node of that class. *)
Lemma preVisit_InternalEqHashedKey (expr : Address) (s : VisitorState)
    (n : MatchExpression) :
  tree s !! expr = Some n -> matchClass n = InternalEqHashedKey ->
  preVisit equivalent expr s = Some (tt, s).
Proof.
  intros Hn Hcls. unfold preVisit, acceptVisitor, bind, deref.
  rewrite Hn, Hcls. reflexivity.
Qed.

(** C9: [preVisit] on a comparison node (equality or ordering) one of whose
    operands is the minimum-bound or maximum-bound sentinel, null, NaN or an
    array, or on a membership test whose list has an array, a null or a
    pattern, succeeds and leaves the whole state as it was: no id is taken
    from the context and the node keeps its operands and has no id
    recorded. *)
Theorem disqualified_node_skipped (expr : Address) (s : VisitorState)
    (n : MatchExpression) :
  tree s !! expr = Some n ->
  (isComparisonClass (matchClass n) = true
   /\ exists v, v ∈ operands n
        /\ (v = MinKey \/ v = MaxKey \/ v = Null \/ v = NaN
            \/ exists elements, v = Array elements))
  \/ (matchClass n = InMatchExpression
      /\ exists v, v ∈ operands n
           /\ ((exists elements, v = Array elements) \/ v = Null
               \/ exists source, v = Pattern source)) ->
  preVisit equivalent expr s = Some (tt, s).
Proof.
  intros Hn Hcase. unfold preVisit, acceptVisitor, bind at 1, deref.
  rewrite Hn.
  destruct Hcase as [(Hcls & v & Hv & Hdis)|(Hcls & v & Hv & Hdis)].
  - assert (disqualifiesComparison v = true) as Hd
      by (destruct Hdis as [->|[->|[->|[->|[? ->]]]]]; reflexivity).
    pose proof (visitSingleSlotExpression_skip disqualifiesComparison
                  expr s n Hn (existsb_elem_of _ _ _ Hv Hd)) as Hskip.
    destruct (matchClass n); try discriminate Hcls; exact Hskip.
  - assert (disqualifiesIn v = true) as Hd
      by (destruct Hdis as [[? ->]|[->|[? ->]]]; reflexivity).
    rewrite Hcls. simpl.
    exact (visitSingleSlotExpression_skip disqualifiesIn
             expr s n Hn (existsb_elem_of _ _ _ Hv Hd)).
Qed.

(** C6: limit 1, new context (with the default first id 0 or any other valid
    one).  [availableParamIds(2)] returns false and only clears the flag: the
    vector stays empty and the next id stays where it was.  Any
    [nextInputParamId] call made after it returns nothing and changes nothing,
    so not even the first of the two ids can be obtained; and the visit of a
    bit-test node, which asks [availableParamIds(2)] first, records no id on
    the node and leaves every node of the tree as it was. *)
Theorem all_or_nothing_limit_one (base : InputParamId) :
  isParamId base ->
  availableParamIds 2 (newContext (Node:=Address) (Some 1) base)
    = (false, refusedContext base)
  /\ (forall expr : NodePtr Address,
        nextInputParamId expr (refusedContext base) = (None, refusedContext base))
  /\ (forall (t : Tree) (expr : Address) (n : MatchExpression),
        t !! expr = Some n -> isBitTestClass (matchClass n) = true ->
        preVisit equivalent expr
          {| context := newContext (Some 1) base; tree := t |}
        = Some (tt, {| context := refusedContext base; tree := t |})).
Proof.
  intros Hbase.
  assert (availableParamIds 2 (newContext (Node:=Address) (Some 1) base)
          = (false, refusedContext base)) as Havail.
  { unfold availableParamIds, newContext. simpl.
    rewrite (budget_sum_exact base 2 Hbase) by (unfold isIdCount; lia).
    destruct Hbase as [H0 _].
    destruct (Z.ltb_spec 1 (base + 2)); [reflexivity|lia]. }
  split; [exact Havail|]. split; [reflexivity|].
  intros t expr n Hn Hcls.
  unfold preVisit, acceptVisitor, bind at 1, deref. simpl. rewrite Hn.
  assert (visitBitTestExpression expr
            {| context := newContext (Some 1) base; tree := t |}
          = Some (tt, {| context := refusedContext base; tree := t |})) as Hvisit.
  { unfold visitBitTestExpression, visitTwoSlotExpression, bind, onContext.
    simpl. rewrite Havail. reflexivity. }
  destruct (matchClass n); try discriminate Hcls; exact Hvisit.
Qed.

End VisitorFacts.

(** * The theorems at concrete inputs *)

Lemma nextInputParamId_cases_witness :
  isParamId (nextParamId oneIssued)
  /\ nextInputParamId (Some 4%positive) oneIssued =
       (Some 1,
        {| inputParamIdToExpressionMap := [Some 2%positive; Some 4%positive];
           maxParamCount := Some 2;
           nextParamId := 2;
           parameterized := true |}).
Proof.
  assert (isParamId (nextParamId oneIssued)) as Hid
    by (unfold isParamId; simpl; lia).
  split; [exact Hid|].
  apply (proj2 (proj2 (nextInputParamId_cases (Some 4%positive) oneIssued Hid))).
  - reflexivity.
  - unfold budgetExhausted; simpl; lia.
  - unfold InputParamId_max, InputParamId_bits; simpl; lia.
Defined.

Lemma availableParamIds_iff_witness :
  isParamId (nextParamId oneIssued) /\ isIdCount 2
  /\ ((availableParamIds 2 oneIssued).1 = true <->
      parameterized oneIssued = true /\ withinBudget oneIssued 2).
Proof.
  assert (isParamId (nextParamId oneIssued)) as Hid
    by (unfold isParamId; simpl; lia).
  assert (isIdCount 2) as Hn by (unfold isIdCount; lia).
  split; [exact Hid|]. split; [exact Hn|].
  exact (proj1 (availableParamIds_iff 2 oneIssued Hid Hn)).
Defined.

Lemma parameterized_sticky_witness :
  parameterized (refusedContext (Node:=Address) 0) = false
  /\ run Pos.eqb firstRequests (refusedContext 0) =
       Some (refusal <$> firstRequests, refusedContext 0).
Proof.
  split; [reflexivity|].
  apply (proj2 (proj2 (parameterized_sticky Pos.eqb None 0 firstRequests
                         (refusedContext 0)))).
  reflexivity.
Defined.

Lemma issued_ids_contiguous_witness :
  fitsInputParamId 5
  /\ run (structurallyEquivalent orTree) orTreeRequests (newContext None 5)
     = Some ([ParamId (Some 5); ParamId (Some 0); ParamId (Some 6)],
             {| inputParamIdToExpressionMap := [Some 2%positive; Some 5%positive];
                maxParamCount := None;
                nextParamId := 7;
                parameterized := true |})
  /\ fitsInputParamId (5 + Z.of_nat (length [Some 2%positive; Some 5%positive]))
  /\ issued (structurallyEquivalent orTree) orTreeRequests (newContext None 5)
     = Some (idsFrom 5 2).
Proof.
  assert (fitsInputParamId 5) as Hbase by (vm_compute; split; discriminate).
  assert (run (structurallyEquivalent orTree) orTreeRequests (newContext None 5)
          = Some ([ParamId (Some 5); ParamId (Some 0); ParamId (Some 6)],
                  {| inputParamIdToExpressionMap :=
                       [Some 2%positive; Some 5%positive];
                     maxParamCount := None;
                     nextParamId := 7;
                     parameterized := true |})) as Hrun
    by (vm_compute; reflexivity).
  assert (fitsInputParamId
            (5 + Z.of_nat (length [Some 2%positive; Some 5%positive]))) as Hfit
    by (vm_compute; split; discriminate).
  split; [exact Hbase|]. split; [exact Hrun|]. split; [exact Hfit|].
  exact (proj2 (issued_ids_contiguous _ None 5 orTreeRequests _ _
                  Hbase Hrun Hfit)).
Defined.

Lemma runs_agree_witness :
  Forall2 (callsCorrespond shifted) firstRequests secondRequests
  /\ outcomesCorrespond shifted
       (run Pos.eqb (take 6 firstRequests) (newContext (Some 2) 0))
       (run Pos.eqb (take 6 secondRequests) (newContext (Some 2) 0)).
Proof.
  assert (Forall2 (callsCorrespond shifted) firstRequests secondRequests) as Hks
    by (unfold firstRequests, secondRequests, shifted;
        repeat constructor).
  split; [exact Hks|].
  apply (runs_agree Pos.eqb Pos.eqb shifted); [|exact Hks].
  unfold shifted. intros a1 a2 b1 b2 -> ->.
  destruct (Pos.eqb_spec a1 b1), (Pos.eqb_spec (a1 + 10) (b1 + 10));
    [reflexivity|lia|lia|reflexivity].
Defined.

Lemma disqualified_node_skipped_witness :
  tree nullEquality !! 1%positive = Some (leaf EqualityMatchExpression "a" [Null])
  /\ preVisit (structurallyEquivalent (tree nullEquality)) 1%positive nullEquality
     = Some (tt, nullEquality).
Proof.
  assert (tree nullEquality !! 1%positive
          = Some (leaf EqualityMatchExpression "a" [Null])) as Hn
    by reflexivity.
  split; [exact Hn|].
  apply (disqualified_node_skipped _ 1%positive nullEquality _ Hn).
  left. split; [reflexivity|].
  exists Null. split; [simpl; constructor|]. right; right; left; reflexivity.
Defined.

Lemma all_or_nothing_limit_one_witness :
  isParamId 0
  /\ availableParamIds 2 (newContext (Node:=Address) (Some 1) 0)
     = (false, refusedContext 0)
  /\ preVisit Pos.eqb 1%positive
       {| context := newContext (Some 1) 0; tree := bitTestTree |}
     = Some (tt, {| context := refusedContext 0; tree := bitTestTree |}).
Proof.
  assert (isParamId 0) as Hbase by (unfold isParamId; lia).
  split; [exact Hbase|].
  destruct (all_or_nothing_limit_one Pos.eqb 0 Hbase) as (Havail & _ & Hvisit).
  split; [exact Havail|].
  apply (Hvisit bitTestTree 1%positive
           (leaf BitsAllSetMatchExpression "a" [Plain 5])); reflexivity.
Defined.

(** * The scan of the vector *)

Section ScanFacts.

Context {Node : Type}.

Implicit Types (pred : Node -> bool) (v : list (NodePtr Node)).

Lemma find_if_ext pred pred' v :
  (forall m, pred m = pred' m) -> find_if pred v = find_if pred' v.
Proof.
  intros Hext. induction v as [|[m|] v IH]; simpl; [done| |done].
  by rewrite Hext, IH.
Qed.

Lemma find_if_le pred v (it : nat) :
  find_if pred v = Some it -> (it <= length v)%nat.
Proof.
  revert it. induction v as [|[m|] v IH]; simpl; intros it; [|  |done].
  - intros [= <-]. lia.
  - destruct (pred m); [intros [= <-]; lia|].
    destruct (find_if pred v) as [it'|]; simpl; [|done].
    intros [= <-]. specialize (IH it' eq_refl). lia.
Qed.


Lemma find_if_no_match pred v :
  Forall (λ entry, exists m, entry = Some m /\ pred m = false) v ->
  find_if pred v = Some (length v).
Proof.
  induction 1 as [|entry v (m & -> & Hm) _ IH]; simpl; [done|].
  by rewrite Hm, IH.
Qed.

Lemma find_if_null_first pred v (i : nat) :
  v !! i = Some None ->
  (forall j, (j < i)%nat -> exists m', v !! j = Some (Some m') /\ pred m' = false) ->
  find_if pred v = None.
Proof.
  revert i. induction v as [|entry v IH]; intros i Hi Hbefore; [done|].
  destruct i as [|i]; simpl in *.
  - by injection Hi as ->.
  - destruct (Hbefore 0%nat ltac:(lia)) as (m0 & [= ->] & Hm0). rewrite Hm0.
    rewrite (IH i Hi); [done|].
    intros j Hj. apply (Hbefore (S j)). lia.
Qed.

Lemma find_if_app_end pred v (m : Node) :
  find_if pred v = Some (length v) -> pred m = true ->
  find_if pred (v ++ [Some m]) = Some (length v).
Proof.
  intros Hv Hm. induction v as [|[m0|] v IH]; simpl in *; [by rewrite Hm| |done].
  destruct (pred m0); [done|].
  destruct (find_if pred v) as [it|] eqn:Hit; simpl in *; [|done].
  injection Hv as ->. by rewrite IH.
Qed.

End ScanFacts.

(** * What a reusable request returns *)

Section ReusableFacts.

Context {Node : Type}.
Variable equivalent : Node -> Node -> bool.

Implicit Types (c : Ctx Node) (e : Node).


(** X2: when every entry of the vector is non-null and none is equivalent to
    the node, the call does exactly what [nextInputParamId] does on the same
    node and state (a new id, or a refusal that clears the flag), and it does
    not fail. *)
Theorem unmatched_node_delegates e c :
  Forall (λ entry, exists m, entry = Some m /\ equivalent m e = false)
    (inputParamIdToExpressionMap c) ->
  nextReusableInputParamId equivalent (Some e) c
  = Some (nextInputParamId (Some e) c).
Proof.
  intros Hall. unfold nextReusableInputParamId.
  destruct (parameterized c) eqn:Hp; simpl.
  - rewrite (find_if_no_match (λ m, equivalent m e) _ Hall). simpl.
    by rewrite Nat.eqb_refl.
  - unfold nextInputParamId. by rewrite Hp.
Qed.

(** X3: when the flag is true and the scan meets a null entry before any
    equivalent one, the call has no defined result: the entry is dereferenced
    to ask [equivalent]. *)
Theorem null_entry_reached e c (i : nat) :
  parameterized c = true ->
  inputParamIdToExpressionMap c !! i = Some None ->
  (forall j, (j < i)%nat ->
     exists m', inputParamIdToExpressionMap c !! j = Some (Some m')
                /\ equivalent m' e = false) ->
  nextReusableInputParamId equivalent (Some e) c = None.
Proof.
  intros Hp Hi Hbefore. unfold nextReusableInputParamId. rewrite Hp. simpl.
  by rewrite (find_if_null_first (λ m, equivalent m e) _ i Hi Hbefore).
Qed.

(** X4: in a context whose ids started at 0, once a request for [e] has
    returned an id, a request for any node [e'] that the entries of the vector
    cannot tell from [e] returns the same id and leaves the context
    unchanged, provided [e] is equivalent to itself. *)
Theorem equivalent_nodes_share_id e e' c (id : InputParamId) (c1 : Ctx Node) :
  lengthInvariant 0 c ->
  equivalent e e = true ->
  (forall m, equivalent m e' = equivalent m e) ->
  nextReusableInputParamId equivalent (Some e) c = Some (Some id, c1) ->
  nextReusableInputParamId equivalent (Some e') c1 = Some (Some id, c1).
Proof.
  intros Hinv Hrefl Hsame. unfold nextReusableInputParamId at 1.
  destruct (parameterized c) eqn:Hp; simpl; [|done].
  destruct (find_if _ (inputParamIdToExpressionMap c)) as [it|] eqn:Hfind;
    simpl; [|done].
  destruct (Nat.eqb_spec it (length (inputParamIdToExpressionMap c))) as [->|Hne].
  - intros [= Hnext].
    destruct (nextInputParamId_effect (Some e) c) as [H|[[_ H]|[_ H]]];
      rewrite H in Hnext; [done|done|].
    injection Hnext as <- <-.
    unfold nextReusableInputParamId. simpl. rewrite Hp. simpl.
    rewrite (find_if_ext _ (λ m, equivalent m e) _ Hsame).
    rewrite (find_if_app_end _ _ e Hfind Hrefl). simpl.
    rewrite length_app. simpl.
    destruct (Nat.eqb_spec (length (inputParamIdToExpressionMap c))
                (length (inputParamIdToExpressionMap c) + 1)); [lia|].
    unfold lengthInvariant in Hinv. do 3 f_equal. lia.
  - intros [= <- <-]. unfold nextReusableInputParamId. rewrite Hp. simpl.
    rewrite (find_if_ext _ (λ m, equivalent m e) _ Hsame), Hfind. simpl.
    destruct (Nat.eqb_spec it (length (inputParamIdToExpressionMap c)));
      [lia|done].
Qed.

End ReusableFacts.

(** * Invariants of sequences of requests *)

Section RunFacts.

Context {Node : Type}.
Variable equivalent : Node -> Node -> bool.

Implicit Types (c : Ctx Node) (k : Call Node) (ks : list (Call Node)).

Lemma run_counter ks c rs c' :
  fitsInputParamId (nextParamId c) ->
  run equivalent ks c = Some (rs, c') ->
  fitsInputParamId
    (nextParamId c
     + Z.of_nat (length (inputParamIdToExpressionMap c')
                 - length (inputParamIdToExpressionMap c))) ->
  nextParamId c' =
    nextParamId c
    + Z.of_nat (length (inputParamIdToExpressionMap c')
                - length (inputParamIdToExpressionMap c)).
Proof.
  revert c rs c'. induction ks as [|k ks IH]; simpl; intros c rs c' Hnext.
  - intros [= _ <-] _. rewrite Nat.sub_diag. simpl. lia.
  - destruct (call equivalent k c) as [[r c1]|] eqn:Hcall; simpl; [|done].
    destruct (run equivalent ks c1) as [[rs1 c2]|] eqn:Hrun; simpl; [|done].
    intros [= _ <-] Hfit.
    destruct (run_extends equivalent _ _ _ _ Hrun) as [Hpre _].
    apply prefix_length in Hpre.
    destruct (call_effect equivalent _ _ _ _ Hcall)
      as [Hsame|(_ & _ & expr & ->)].
    + assert (inputParamIdToExpressionMap c1 = inputParamIdToExpressionMap c
              /\ nextParamId c1 = nextParamId c) as [Htbl Hn]
        by (destruct Hsame as [->|[_ ->]]; done).
      rewrite <- Htbl, <- Hn in *. by apply (IH c1 rs1 c2).
    + cbn [inputParamIdToExpressionMap emplace_back_and_advance] in Hpre.
      rewrite length_app in Hpre. simpl in Hpre.
      assert (nextParamId (emplace_back_and_advance expr c) = nextParamId c + 1)
        as Hn.
      { simpl. apply to_InputParamId_fits.
        destruct Hnext, Hfit. split; lia. }
      assert (fitsInputParamId (nextParamId (emplace_back_and_advance expr c)))
        as Hnext1 by (rewrite Hn; destruct Hnext, Hfit; split; lia).
      rewrite (IH (emplace_back_and_advance expr c) rs1 c2 Hnext1 Hrun);
        rewrite Hn;
        cbn [inputParamIdToExpressionMap emplace_back_and_advance];
        rewrite length_app; simpl.
      * lia.
      * destruct Hnext, Hfit. split; lia.
Qed.

(** X5: over any sequence of calls the vector only grows at its end (every
    entry stays at its index: none is removed, replaced or moved) and the
    limit stays what it was; and when the next id before the sequence and the
    next id plus the number of entries added are values of the id type (no
    [nextParamId++] overflows), the next id advances by exactly the number of
    entries added. *)
Theorem vector_only_grows ks c rs c' :
  run equivalent ks c = Some (rs, c') ->
  (forall (i : nat) entry,
     inputParamIdToExpressionMap c !! i = Some entry ->
     inputParamIdToExpressionMap c' !! i = Some entry)
  /\ maxParamCount c' = maxParamCount c
  /\ (fitsInputParamId (nextParamId c) ->
      fitsInputParamId
        (nextParamId c
         + Z.of_nat (length (inputParamIdToExpressionMap c')
                     - length (inputParamIdToExpressionMap c))) ->
      nextParamId c' =
        nextParamId c
        + Z.of_nat (length (inputParamIdToExpressionMap c')
                    - length (inputParamIdToExpressionMap c))).
Proof.
  intros Hrun. destruct (run_extends equivalent _ _ _ _ Hrun) as (Hpre & Hlim).
  split; [|split; [done|]].
  - intros i entry Hi. by eapply prefix_lookup_Some.
  - intros Hnext Hfit. by eapply run_counter.
Qed.

Lemma nextInputParamId_emplace_within (expr expr' : NodePtr Node) c o :
  nextInputParamId expr c = (o, emplace_back_and_advance expr' c) ->
  forall limit, maxParamCount c = Some limit ->
    to_size_t (nextParamId c) < limit.
Proof.
  unfold nextInputParamId. intros H limit Hlim. rewrite Hlim in H.
  destruct (parameterized c); simpl in H.
  - destruct (Z.leb_spec limit (to_size_t (nextParamId c))); [|done].
    apply (f_equal (λ p, length (inputParamIdToExpressionMap p.2))) in H.
    simpl in H. rewrite length_app in H. simpl in H. lia.
  - apply (f_equal (λ p, length (inputParamIdToExpressionMap p.2))) in H.
    simpl in H. rewrite length_app in H. simpl in H. lia.
Qed.

Lemma call_emplace_within k c r (expr : NodePtr Node) :
  call equivalent k c = Some (r, emplace_back_and_advance expr c) ->
  forall limit, maxParamCount c = Some limit ->
    to_size_t (nextParamId c) < limit.
Proof.
  assert (forall c0 : Ctx Node,
            inputParamIdToExpressionMap c0 = inputParamIdToExpressionMap c ->
            c0 <> emplace_back_and_advance expr c) as Hneq.
  { intros c0 Htbl Heq.
    apply (f_equal (λ p, length (inputParamIdToExpressionMap p))) in Heq.
    simpl in Heq. rewrite Htbl, length_app in Heq. simpl in Heq. lia. }
  destruct k as [n|expr0|expr0]; simpl.
  - destruct (availableParamIds_effect n c) as [H|[_ H]];
      destruct (availableParamIds n c) as [b c1]; simpl in *;
      intros [= _ Hc].
    + subst c1. by destruct (Hneq c eq_refl).
    + injection H as _ ->. by destruct (Hneq (set_parameterized false c) eq_refl).
  - destruct (nextInputParamId expr0 c) as [o c1] eqn:Hn. intros [= _ ->].
    by eapply nextInputParamId_emplace_within.
  - destruct (nextReusableInputParamId equivalent expr0 c) as [[o c1]|] eqn:Hr;
      simpl; [|done].
    intros [= _ ->].
    destruct (nextReusableInputParamId_effect equivalent _ _ _ _ Hr) as [Hc|Hn].
    + by destruct (Hneq c eq_refl).
    + symmetry in Hn. by eapply nextInputParamId_emplace_within.
Qed.

Lemma run_within_limit (limit : Z) (base : InputParamId) ks c rs c' :
  0 <= base -> fitsInputParamId base ->
  maxParamCount c = Some limit ->
  lengthInvariant base c ->
  nextParamId c <= Z.max base limit ->
  run equivalent ks c = Some (rs, c') ->
  fitsInputParamId (base + Z.of_nat (length (inputParamIdToExpressionMap c'))) ->
  nextParamId c' <= Z.max base limit.
Proof.
  intros H0 Hbase. revert c rs c'.
  induction ks as [|k ks IH]; simpl; intros c rs c' Hlim Hinv Hnext.
  - intros [= _ <-] _. lia.
  - destruct (call equivalent k c) as [[r c1]|] eqn:Hcall; simpl; [|done].
    destruct (run equivalent ks c1) as [[rs1 c2]|] eqn:Hrun; simpl; [|done].
    intros [= _ <-] Hfit.
    destruct (run_extends equivalent _ _ _ _ Hrun) as [Hpre _].
    apply prefix_length in Hpre.
    assert (maxParamCount c1 = Some limit /\ lengthInvariant base c1 /\
            nextParamId c1 <= Z.max base limit) as (Hlim1 & Hinv1 & Hnext1).
    { destruct (call_effect equivalent _ _ _ _ Hcall)
        as [[->|[_ ->]]|(_ & _ & expr & ->)]; [done|done|].
      cbn [inputParamIdToExpressionMap emplace_back_and_advance] in Hpre.
      destruct (emplace_back_lengthInvariant base expr c Hbase Hinv)
        as [Hn Hinv1].
      { destruct Hbase, Hfit. split; lia. }
      split; [done|]. split; [done|]. rewrite Hn.
      pose proof (call_emplace_within _ _ _ _ Hcall limit Hlim) as Hlt.
      unfold lengthInvariant in Hinv.
      rewrite to_size_t_small in Hlt; [lia|].
      destruct Hbase, Hfit.
      rewrite length_app in Hpre. simpl in Hpre.
      unfold size_t_modulus, size_t_bits, InputParamId_max, InputParamId_bits in *.
      lia. }
    by eapply IH.
Qed.

(** X6: in a context created with a limit and a non-negative first id [base],
    after any sequence of calls that stays within the id type ([base] plus
    the length of the vector is a value of it, so that no [nextParamId++]
    overflows), the vector has at most [limit - base] entries (none when
    [limit <= base]), and every id issued lies in [base, limit). *)
Theorem limit_bounds_ids (limit : Z) (base : InputParamId) ks rs c :
  isSizeT limit -> isParamId base ->
  run equivalent ks (newContext (Some limit) base) = Some (rs, c) ->
  fitsInputParamId (base + Z.of_nat (length (inputParamIdToExpressionMap c))) ->
  Z.of_nat (length (inputParamIdToExpressionMap c)) <= Z.max 0 (limit - base)
  /\ exists ids, issued equivalent ks (newContext (Some limit) base) = Some ids
                 /\ Forall (λ id, base <= id < limit) ids.
Proof.
  intros Hlimit [H0 _] Hrun Hfit.
  assert (fitsInputParamId base) as Hbase.
  { destruct Hfit as [_ Hhi]. unfold fitsInputParamId, InputParamId_min,
      InputParamId_bits in *. split; lia. }
  assert (lengthInvariant base (newContext (Node:=Node) (Some limit) base)) as Hinv
    by (unfold lengthInvariant; simpl; lia).
  destruct (run_issued equivalent _ _ _ _ _ Hbase Hinv Hrun Hfit)
    as (Hinv' & _ & Hiss).
  assert (nextParamId c <= Z.max base limit) as Hbound.
  { apply (run_within_limit limit base ks (newContext (Some limit) base) rs c);
      [done|done|done|done|simpl; lia|done|done]. }
  unfold lengthInvariant in Hinv'. split; [lia|].
  eexists. split; [exact Hiss|]. simpl. rewrite Nat.sub_0_r.
  apply Forall_forall. intros id Hid. unfold idsFrom in Hid.
  apply list_elem_of_fmap in Hid as (i & -> & Hi).
  apply elem_of_seq in Hi. lia.
Qed.

End RunFacts.

Section GroupFacts.

Context {Node : Type}.
Variable equivalent : Node -> Node -> bool.

Implicit Types (c : Ctx Node) (k : Call Node) (ks : list (Call Node)).

Lemma run_next_all (exprs : list (NodePtr Node)) c :
  parameterized c = true ->
  0 <= nextParamId c ->
  nextParamId c + Z.of_nat (length exprs) <= InputParamId_max ->
  withinBudget c (Z.of_nat (length exprs)) ->
  run equivalent (NextInputParamId <$> exprs) c
  = Some ((λ id, ParamId (Some id)) <$> idsFrom (nextParamId c) (length exprs),
          {| inputParamIdToExpressionMap := inputParamIdToExpressionMap c ++ exprs;
             maxParamCount := maxParamCount c;
             nextParamId := nextParamId c + Z.of_nat (length exprs);
             parameterized := true |}).
Proof.
  revert c. induction exprs as [|expr exprs IH]; intros c Hp H0 Hmax Hbudget.
  - destruct c as [tbl lim next flag]. simpl in *. subst flag.
    rewrite app_nil_r, Z.add_0_r. done.
  - assert (nextParamId c < InputParamId_max) as Hlt by (simpl in Hmax; lia).
    assert (to_InputParamId (nextParamId c + 1) = nextParamId c + 1) as Hsucc.
    { apply to_InputParamId_fits.
      unfold fitsInputParamId, InputParamId_min, InputParamId_bits in *.
      split; lia. }
    assert (nextInputParamId expr c
            = (Some (nextParamId c), emplace_back_and_advance expr c)) as Hnext.
    { unfold nextInputParamId, withinBudget in *. rewrite Hp. simpl in *.
      rewrite to_size_t_small
        by (unfold size_t_modulus, size_t_bits, InputParamId_max,
              InputParamId_bits in *; lia).
      destruct (maxParamCount c) as [limit|]; [|done].
      destruct (Z.leb_spec limit (nextParamId c)); [lia|done]. }
    cbn [fmap list_fmap run call]. rewrite Hnext. cbn [mbind option_bind].
    rewrite IH.
    + cbn [mbind option_bind length]. rewrite idsFrom_S.
      cbn [fmap list_fmap emplace_back_and_advance inputParamIdToExpressionMap
           maxParamCount nextParamId].
      rewrite Hsucc. do 3 f_equal.
      * by rewrite <- app_assoc.
      * lia.
    + done.
    + simpl. rewrite Hsucc. lia.
    + simpl in *. rewrite Hsucc. lia.
    + unfold withinBudget in *. simpl in *. rewrite Hsucc.
      destruct (maxParamCount c); [lia|done].
Qed.

(** X7: when [availableParamIds(n)] returns true on a context whose next id
    is a valid slot id, with [n] more ids still within the id type (no
    [nextParamId++] overflows), the context is unchanged by it and the next
    [n] [nextInputParamId] calls all succeed: they return the [n] consecutive
    ids from the next id on, append their node references in order and leave
    the flag true. *)
Theorem available_then_all_succeed (exprs : list (NodePtr Node)) c :
  isParamId (nextParamId c) ->
  isIdCount (Z.of_nat (length exprs)) ->
  nextParamId c + Z.of_nat (length exprs) <= InputParamId_max ->
  (availableParamIds (Z.of_nat (length exprs)) c).1 = true ->
  availableParamIds (Z.of_nat (length exprs)) c = (true, c)
  /\ run equivalent (NextInputParamId <$> exprs) c
     = Some ((λ id, ParamId (Some id)) <$> idsFrom (nextParamId c) (length exprs),
             {| inputParamIdToExpressionMap :=
                  inputParamIdToExpressionMap c ++ exprs;
                maxParamCount := maxParamCount c;
                nextParamId := nextParamId c + Z.of_nat (length exprs);
                parameterized := true |}).
Proof.
  intros Hid Hn Hmax Havail.
  assert (parameterized c = true
          /\ withinBudget c (Z.of_nat (length exprs))
          /\ availableParamIds (Z.of_nat (length exprs)) c = (true, c))
    as (Hp & Hbudget & Heq).
  { unfold availableParamIds, withinBudget in *.
    rewrite (budget_sum_exact _ _ Hid Hn) in *.
    destruct c as [tbl [limit|] next [|]]; simpl in *; try done.
    destruct (Z.ltb_spec limit (next + Z.of_nat (length exprs)));
      simpl in *; [done|].
    split; [done|]. split; [lia|done]. }
  split; [exact Heq|].
  destruct Hid as [H0 H1].
  by apply run_next_all.
Qed.

Lemma call_lengthInvariant_0 k c r c' :
  lengthInvariant 0 c -> call equivalent k c = Some (r, c') ->
  Z.of_nat (length (inputParamIdToExpressionMap c')) <= InputParamId_max ->
  lengthInvariant 0 c'.
Proof.
  intros Hinv Hcall Hmax.
  destruct (call_effect equivalent _ _ _ _ Hcall)
    as [[->|[_ ->]]|(_ & _ & expr & ->)]; [done|done|].
  apply emplace_back_lengthInvariant; [|done|].
  - unfold fitsInputParamId, InputParamId_min, InputParamId_max,
      InputParamId_bits. lia.
  - simpl in Hmax. unfold fitsInputParamId, InputParamId_min,
      InputParamId_bits in *. split; lia.
Qed.

Lemma call_indexes_entry k c r c' :
  lengthInvariant 0 c -> call equivalent k c = Some (r, c') ->
  indexesEntry equivalent (inputParamIdToExpressionMap c') k r.
Proof.
  intros Hinv Hcall id ->. unfold lengthInvariant in Hinv.
  assert (forall expr : NodePtr Node,
            nextInputParamId expr c = (Some id, c') ->
            0 <= id
            /\ inputParamIdToExpressionMap c' !! Z.to_nat id = Some expr) as Hnew.
  { intros expr Hn.
    destruct (nextInputParamId_effect expr c) as [H|[[_ H]|[_ H]]];
      rewrite H in Hn; [done|done|].
    injection Hn as <- <-. split; [lia|]. simpl.
    apply list_lookup_middle. lia. }
  destruct k as [n|expr|expr]; simpl in Hcall.
  - by destruct (availableParamIds n c).
  - destruct (nextInputParamId expr c) as [o c1] eqn:Hn.
    injection Hcall as -> ->. destruct (Hnew expr Hn) as [H0 Hat].
    split; [done|]. by exists expr.
  - destruct (nextReusableInputParamId equivalent expr c) as [[o c1]|] eqn:Hr;
      simpl in Hcall; [|done].
    injection Hcall as -> ->. unfold nextReusableInputParamId in Hr.
    destruct (parameterized c); simpl in Hr; [|done].
    destruct expr as [e|]; [|done].
    destruct (find_if _ _) as [it|] eqn:Hfind; simpl in Hr; [|done].
    destruct (Nat.eqb_spec it (length (inputParamIdToExpressionMap c))) as [->|Hne].
    + injection Hr as Hn. destruct (Hnew (Some e) Hn) as [H0 Hat].
      split; [done|]. exists (Some e). split; [done|]. exists e, e. auto.
    + injection Hr as <- <-. split; [lia|]. rewrite Nat2Z.id.
      pose proof (find_if_le _ _ _ Hfind) as Hle.
      destruct (find_if_first _ _ _ Hfind ltac:(lia)) as [(m & Hat & Hm) _].
      exists (Some m). split; [done|]. exists e, m. auto.
Qed.

(** X8: in a context whose ids started at 0, after any sequence of calls that
    leaves a vector no longer than the largest id (so that the ids have not
    run out of the id type), every id that a call returned is an index into
    the final vector, and the entry there is the reference that was passed to
    [nextInputParamId], or, for [nextReusableInputParamId], the node itself
    or a node equivalent to it. *)
Theorem returned_id_indexes_entry ks c rs c' :
  lengthInvariant 0 c ->
  run equivalent ks c = Some (rs, c') ->
  Z.of_nat (length (inputParamIdToExpressionMap c')) <= InputParamId_max ->
  Forall2 (indexesEntry equivalent (inputParamIdToExpressionMap c')) ks rs.
Proof.
  revert c rs c'. induction ks as [|k ks IH]; simpl; intros c rs c' Hinv.
  - intros [= <- _] _. constructor.
  - destruct (call equivalent k c) as [[r c1]|] eqn:Hcall; simpl; [|done].
    destruct (run equivalent ks c1) as [[rs1 c2]|] eqn:Hrun; simpl; [|done].
    intros [= <- <-] Hmax.
    destruct (run_extends equivalent _ _ _ _ Hrun) as (Hpre & _).
    assert (lengthInvariant 0 c1) as Hinv1.
    { apply (call_lengthInvariant_0 _ _ _ _ Hinv Hcall).
      apply prefix_length in Hpre. lia. }
    constructor; [|by eapply IH].
    intros id Hr.
    destruct (call_indexes_entry _ _ _ _ Hinv Hcall id Hr)
      as (H0 & entry & Hat & Hserved).
    split; [done|]. exists entry. split; [|done].
    by eapply prefix_lookup_Some.
Qed.

Lemma find_if_total (pred : Node -> bool) (v : list (NodePtr Node)) :
  Forall is_Some v -> is_Some (find_if pred v).
Proof.
  induction 1 as [|entry v [m ->] _ IH]; simpl; [done|].
  destruct (pred m); [done|]. destruct IH as [it ->]. done.
Qed.

Lemma call_unlimited k c :
  maxParamCount c = None -> parameterized c = true ->
  Forall is_Some (inputParamIdToExpressionMap c) ->
  ~ storesNull k ->
  exists r c',
    call equivalent k c = Some (r, c')
    /\ granted k r
    /\ maxParamCount c' = None /\ parameterized c' = true
    /\ Forall is_Some (inputParamIdToExpressionMap c').
Proof.
  intros Hlim Hp Hv Hk.
  assert (forall e : Node,
            Forall is_Some
              (inputParamIdToExpressionMap
                 (emplace_back_and_advance (Some e) c))) as Hv'.
  { intros e. simpl. apply Forall_app. split; [done|]. by repeat constructor. }
  destruct k as [n|[e|]|[e|]]; simpl.
  - unfold availableParamIds. rewrite Hp, Hlim. simpl. eauto 10.
  - unfold nextInputParamId. rewrite Hp, Hlim. simpl.
    do 2 eexists. split; [done|]. split; [by eexists|]. auto.
  - by destruct Hk.
  - unfold nextReusableInputParamId. rewrite Hp. simpl.
    destruct (find_if_total (λ m, equivalent m e) _ Hv) as [it ->]. simpl.
    destruct (it =? _)%nat; simpl.
    + unfold nextInputParamId. rewrite Hp, Hlim. simpl.
      do 2 eexists. split; [done|]. split; [by eexists|]. auto.
    + do 2 eexists. split; [done|]. split; [by eexists|]. auto.
  - unfold nextReusableInputParamId. rewrite Hp. simpl. eauto 10.
Qed.

(** X9: a context without limit whose flag is true and whose vector holds no
    null reference never refuses: any sequence of calls that stores no null
    reference runs to its end, the flag stays true, [availableParamIds]
    returns true and every request for a node returns an id (a null node
    still gets [boost::none] from [nextReusableInputParamId]). *)
Theorem unlimited_never_refuses ks c :
  maxParamCount c = None -> parameterized c = true ->
  Forall is_Some (inputParamIdToExpressionMap c) ->
  Forall (λ k, ~ storesNull k) ks ->
  exists rs c',
    run equivalent ks c = Some (rs, c')
    /\ Forall2 granted ks rs /\ parameterized c' = true.
Proof.
  intros Hlim Hp Hv Hks. revert c Hlim Hp Hv.
  induction Hks as [|k ks Hk _ IH]; simpl; intros c Hlim Hp Hv.
  - exists [], c. split; [done|]. split; [constructor|done].
  - destruct (call_unlimited k c Hlim Hp Hv Hk)
      as (r & c1 & -> & Hg & Hlim1 & Hp1 & Hv1).
    destruct (IH c1 Hlim1 Hp1 Hv1) as (rs & c2 & Hrun & Hgs & Hp2).
    simpl. rewrite Hrun. simpl.
    exists (r :: rs), c2. split; [done|]. split; [by constructor|done].
Qed.

End GroupFacts.

(** * The further properties at concrete inputs *)


Lemma unmatched_node_delegates_witness :
  Forall (λ entry, exists m, entry = Some m
                     /\ structurallyEquivalent orTree m 5%positive = false)
    (inputParamIdToExpressionMap oneIssued)
  /\ nextReusableInputParamId (structurallyEquivalent orTree)
       (Some 5%positive) oneIssued
     = Some (nextInputParamId (Some 5%positive) oneIssued).
Proof.
  assert (Forall (λ entry, exists m, entry = Some m
                     /\ structurallyEquivalent orTree m 5%positive = false)
            (inputParamIdToExpressionMap oneIssued)) as Hall.
  { simpl. constructor; [|constructor].
    exists 2%positive. split; [reflexivity|vm_compute; reflexivity]. }
  split; [exact Hall|].
  exact (unmatched_node_delegates (structurallyEquivalent orTree)
           5%positive oneIssued Hall).
Defined.

Lemma null_entry_reached_witness :
  parameterized nullStored = true
  /\ inputParamIdToExpressionMap nullStored !! 1%nat = Some None
  /\ nextReusableInputParamId (structurallyEquivalent orTree)
       (Some 5%positive) nullStored = None.
Proof.
  split; [reflexivity|]. split; [reflexivity|].
  apply (null_entry_reached (structurallyEquivalent orTree)
           5%positive nullStored 1%nat); [reflexivity|reflexivity|].
  intros j Hj. assert (j = 0%nat) as -> by lia.
  exists 2%positive. split; [reflexivity|vm_compute; reflexivity].
Defined.

Lemma equivalent_nodes_share_id_witness :
  lengthInvariant 0 (defaultContext (Node:=Address))
  /\ structurallyEquivalent orTree 2%positive 2%positive = true
  /\ nextReusableInputParamId (structurallyEquivalent orTree) (Some 4%positive)
       (emplace_back_and_advance (Some 2%positive) defaultContext)
     = Some (Some 0, emplace_back_and_advance (Some 2%positive) defaultContext).
Proof.
  assert (lengthInvariant 0 (defaultContext (Node:=Address))) as Hinv
    by (unfold lengthInvariant; simpl; lia).
  split; [exact Hinv|]. split; [vm_compute; reflexivity|].
  apply (equivalent_nodes_share_id (structurallyEquivalent orTree)
           2%positive 4%positive defaultContext 0 _ Hinv);
    [vm_compute; reflexivity| |reflexivity].
  intros m. unfold structurallyEquivalent.
  change (orTree !! 4%positive) with (orTree !! 2%positive). reflexivity.
Defined.

Lemma vector_only_grows_witness :
  run (structurallyEquivalent orTree) orTreeRequests oneIssued
  = Some ([ParamId (Some 0); ParamId (Some 0); ParamId (Some 1)],
          {| inputParamIdToExpressionMap := [Some 2%positive; Some 5%positive];
             maxParamCount := Some 2;
             nextParamId := 2;
             parameterized := true |})
  /\ fitsInputParamId (nextParamId oneIssued)
  /\ fitsInputParamId (nextParamId oneIssued + Z.of_nat (2 - 1))
  /\ [Some 2%positive; Some 5%positive] !! 0%nat = Some (Some 2%positive)
  /\ 2 = nextParamId oneIssued + Z.of_nat (2 - 1).
Proof.
  assert (run (structurallyEquivalent orTree) orTreeRequests oneIssued
          = Some ([ParamId (Some 0); ParamId (Some 0); ParamId (Some 1)],
                  {| inputParamIdToExpressionMap :=
                       [Some 2%positive; Some 5%positive];
                     maxParamCount := Some 2;
                     nextParamId := 2;
                     parameterized := true |})) as Hrun
    by (vm_compute; reflexivity).
  assert (fitsInputParamId (nextParamId oneIssued)) as Hnext
    by (vm_compute; split; discriminate).
  assert (fitsInputParamId (nextParamId oneIssued + Z.of_nat (2 - 1))) as Hfit
    by (vm_compute; split; discriminate).
  split; [exact Hrun|]. split; [exact Hnext|]. split; [exact Hfit|].
  destruct (vector_only_grows _ _ _ _ _ Hrun) as (Hkeep & _ & Hcount).
  split.
  - apply (Hkeep 0%nat (Some 2%positive)). reflexivity.
  - exact (Hcount Hnext Hfit).
Defined.

Lemma limit_bounds_ids_witness :
  isSizeT 2 /\ isParamId 0
  /\ run Pos.eqb firstRequests (newContext (Some 2) 0)
     = Some ([ParamId (Some 0); Available false; ParamId None; ParamId None;
              ParamId None; ParamId None],
             {| inputParamIdToExpressionMap := [Some 1%positive];
                maxParamCount := Some 2;
                nextParamId := 1;
                parameterized := false |})
  /\ fitsInputParamId (0 + Z.of_nat (length [Some 1%positive]))
  /\ Z.of_nat (length [Some 1%positive]) <= Z.max 0 (2 - 0).
Proof.
  assert (isSizeT 2) as Hlimit
    by (unfold isSizeT, size_t_modulus, size_t_bits; lia).
  assert (isParamId 0) as Hbase by (unfold isParamId; lia).
  assert (run Pos.eqb firstRequests (newContext (Some 2) 0)
          = Some ([ParamId (Some 0); Available false; ParamId None; ParamId None;
                   ParamId None; ParamId None],
                  {| inputParamIdToExpressionMap := [Some 1%positive];
                     maxParamCount := Some 2;
                     nextParamId := 1;
                     parameterized := false |})) as Hrun
    by (vm_compute; reflexivity).
  assert (fitsInputParamId (0 + Z.of_nat (length [Some 1%positive]))) as Hfit
    by (vm_compute; split; discriminate).
  split; [exact Hlimit|]. split; [exact Hbase|]. split; [exact Hrun|].
  split; [exact Hfit|].
  exact (proj1 (limit_bounds_ids Pos.eqb 2 0 firstRequests _ _
                  Hlimit Hbase Hrun Hfit)).
Defined.

Lemma available_then_all_succeed_witness :
  isParamId (nextParamId (newContext (Node:=Address) (Some 2) 0))
  /\ isIdCount (Z.of_nat (length [Some 1%positive; Some 1%positive]))
  /\ nextParamId (newContext (Node:=Address) (Some 2) 0)
     + Z.of_nat (length [Some 1%positive; Some 1%positive]) <= InputParamId_max
  /\ (availableParamIds 2 (newContext (Node:=Address) (Some 2) 0)).1 = true
  /\ run Pos.eqb
       [NextInputParamId (Some 1%positive); NextInputParamId (Some 1%positive)]
       (newContext (Some 2) 0)
     = Some ([ParamId (Some 0); ParamId (Some 1)],
             {| inputParamIdToExpressionMap := [Some 1%positive; Some 1%positive];
                maxParamCount := Some 2;
                nextParamId := 2;
                parameterized := true |}).
Proof.
  assert (isParamId (nextParamId (newContext (Node:=Address) (Some 2) 0))) as Hid
    by (unfold isParamId; simpl; lia).
  assert (isIdCount (Z.of_nat (length [Some 1%positive; Some 1%positive])))
    as Hn by (unfold isIdCount; simpl; lia).
  assert (nextParamId (newContext (Node:=Address) (Some 2) 0)
          + Z.of_nat (length [Some 1%positive; Some 1%positive])
          <= InputParamId_max) as Hmax
    by (vm_compute; discriminate).
  split; [exact Hid|]. split; [exact Hn|]. split; [exact Hmax|].
  split; [reflexivity|].
  exact (proj2 (available_then_all_succeed Pos.eqb
                  [Some 1%positive; Some 1%positive]
                  (newContext (Some 2) 0) Hid Hn Hmax eq_refl)).
Defined.

Lemma returned_id_indexes_entry_witness :
  lengthInvariant 0 (defaultContext (Node:=Address))
  /\ run (structurallyEquivalent orTree) orTreeRequests defaultContext
     = Some ([ParamId (Some 0); ParamId (Some 0); ParamId (Some 1)],
             twoIssuedUnlimited)
  /\ Z.of_nat (length (inputParamIdToExpressionMap twoIssuedUnlimited))
     <= InputParamId_max
  /\ Forall2 (indexesEntry (structurallyEquivalent orTree)
                [Some 2%positive; Some 5%positive])
       orTreeRequests
       [ParamId (Some 0); ParamId (Some 0); ParamId (Some 1)].
Proof.
  assert (lengthInvariant 0 (defaultContext (Node:=Address))) as Hinv
    by (unfold lengthInvariant; simpl; lia).
  assert (run (structurallyEquivalent orTree) orTreeRequests defaultContext
          = Some ([ParamId (Some 0); ParamId (Some 0); ParamId (Some 1)],
                  twoIssuedUnlimited)) as Hrun
    by (vm_compute; reflexivity).
  assert (Z.of_nat (length (inputParamIdToExpressionMap twoIssuedUnlimited))
          <= InputParamId_max) as Hmax
    by (vm_compute; discriminate).
  split; [exact Hinv|]. split; [exact Hrun|]. split; [exact Hmax|].
  exact (returned_id_indexes_entry _ _ _ _ _ Hinv Hrun Hmax).
Defined.

Lemma unlimited_never_refuses_witness :
  maxParamCount twoIssuedUnlimited = None
  /\ parameterized twoIssuedUnlimited = true
  /\ Forall is_Some (inputParamIdToExpressionMap twoIssuedUnlimited)
  /\ Forall (λ k, ~ storesNull k) orTreeRequests
  /\ exists rs c',
       run (structurallyEquivalent orTree) orTreeRequests twoIssuedUnlimited
       = Some (rs, c')
       /\ Forall2 granted orTreeRequests rs /\ parameterized c' = true.
Proof.
  assert (Forall is_Some (inputParamIdToExpressionMap twoIssuedUnlimited)) as Hv
    by (simpl; repeat constructor; by eexists).
  assert (Forall (λ k : Call Address, ~ storesNull k) orTreeRequests) as Hks
    by (unfold orTreeRequests, storesNull; repeat constructor; discriminate).
  split; [reflexivity|]. split; [reflexivity|]. split; [exact Hv|].
  split; [exact Hks|].
  exact (unlimited_never_refuses (structurallyEquivalent orTree)
           orTreeRequests twoIssuedUnlimited eq_refl eq_refl Hv Hks).
Defined.
